(** * The 8-puzzle A* search of [A-Star Search.cpp], embedded and verified

    The development follows the C++ source: the class [AStar] of
    [Astarsearch.hpp] becomes a record, the global lists [fringe] and
    [closed] and the two counters become the record [Globals] that every
    operation threads through, and the [while (true)] loop of
    [AStar::solve] becomes a fuel-indexed iteration of one loop body. *)

From Stdlib Require Import ZArith List Lia Bool Arith PeanoNat.
From Stdlib Require String Ascii DecimalString DecimalZ DecimalPos.
Import ListNotations.

Local Open Scope Z_scope.

(** ** Grids: [int a[3][3]] *)

Definition MAX_ROWS : nat := 3.
Definition MAX_COLUMNS : nat := 3.

Record Grid : Type := mkGrid {
  a00 : Z; a01 : Z; a02 : Z;
  a10 : Z; a11 : Z; a12 : Z;
  a20 : Z; a21 : Z; a22 : Z
}.

(** [get s i j] is [s[i][j]]; the source only ever indexes inside the
    array, the last branch is never reached from it. *)
Definition get (s : Grid) (i j : nat) : Z :=
  match i, j with
  | 0%nat, 0%nat => a00 s | 0%nat, 1%nat => a01 s | 0%nat, 2%nat => a02 s
  | 1%nat, 0%nat => a10 s | 1%nat, 1%nat => a11 s | 1%nat, 2%nat => a12 s
  | 2%nat, 0%nat => a20 s | 2%nat, 1%nat => a21 s | 2%nat, 2%nat => a22 s
  | _, _ => 0
  end.

Definition set (s : Grid) (i j : nat) (v : Z) : Grid :=
  match s with
  | mkGrid x00 x01 x02 x10 x11 x12 x20 x21 x22 =>
    match i, j with
    | 0%nat, 0%nat => mkGrid v x01 x02 x10 x11 x12 x20 x21 x22
    | 0%nat, 1%nat => mkGrid x00 v x02 x10 x11 x12 x20 x21 x22
    | 0%nat, 2%nat => mkGrid x00 x01 v x10 x11 x12 x20 x21 x22
    | 1%nat, 0%nat => mkGrid x00 x01 x02 v x11 x12 x20 x21 x22
    | 1%nat, 1%nat => mkGrid x00 x01 x02 x10 v x12 x20 x21 x22
    | 1%nat, 2%nat => mkGrid x00 x01 x02 x10 x11 v x20 x21 x22
    | 2%nat, 0%nat => mkGrid x00 x01 x02 x10 x11 x12 v x21 x22
    | 2%nat, 1%nat => mkGrid x00 x01 x02 x10 x11 x12 x20 v x22
    | 2%nat, 2%nat => mkGrid x00 x01 x02 x10 x11 x12 x20 x21 v
    | _, _ => s
    end
  end.

(** [std::swap(s[i][j], s[k][l])]. *)
Definition swap (s : Grid) (i j k l : nat) : Grid :=
  set (set s i j (get s k l)) k l (get s i j).

(** The cells in the order in which the nested [for] loops over
    [i < MAX_ROWS] and [j < MAX_COLUMNS] visit them. *)
Definition rows : list nat := seq 0 MAX_ROWS.
Definition columns : list nat := seq 0 MAX_COLUMNS.
Definition cells : list (nat * nat) :=
  flat_map (fun i => map (fun j => (i, j)) columns) rows.

Definition to_list (s : Grid) : list Z :=
  map (fun p => get s (fst p) (snd p)) cells.

(** ** Search nodes: [class AStar]

    The members [i] and [j] of the class are scratch loop counters: every
    loop that reads them first assigns them, so they carry no state and
    are left out of the record.  [parent] points into the list [closed]
    ([&(closed.back())]); [closed] only ever grows at its back and a
    [std::list] never moves its elements, so the address of an element is
    modelled by its position in the list, and [NULL] by [None].  The
    [int] members [g], [h] and [f] are integers of [Z]; that they never
    leave the range of an [int] is the lemma [values_fit_int] below. *)

Record AStar : Type := mkAStar {
  a : Grid;
  goal : Grid;
  g : Z;
  h : Z;
  f : Z;
  parent : option nat
}.

(** The two heuristics between which the macros [MISPLACED_TILES] and
    [MANHATTAN] choose at compile time. *)
Inductive Heuristic : Type := MISPLACED_TILES | MANHATTAN.

(** The global variables [fringe], [closed], [nodesGenerated] and
    [nodesExpanded]. *)
Record Globals : Type := mkGlobals {
  fringe : list AStar;
  closed : list AStar;
  nodesGenerated : Z;
  nodesExpanded : Z
}.

(** [AStar::operator<]: the comparison is [<=]. *)
Definition lt_op (this cur : AStar) : bool := f this <=? f cur.

(** [AStar::operator==]: cell-wise comparison of the grids, leaving at the
    first difference. *)
Definition grid_eqb (s t : Grid) : bool :=
  forallb (fun p => get s (fst p) (snd p) =? get t (fst p) (snd p)) cells.

Definition eq_op (this cur : AStar) : bool := grid_eqb (a this) (a cur).

(** [AStar::isGoal]. *)
Definition isGoal (this : AStar) : bool := grid_eqb (a this) (goal this).

(** [AStar::isExplored]. *)
Definition isExplored (cl : list AStar) (cur : AStar) : bool :=
  existsb (fun it => eq_op it cur) cl.

(** *** [AStar::getHeuristic] *)

(** Misplaced tiles: [h++] for every cell that differs from the goal. *)
Definition misplaced (s gl : Grid) : Z :=
  fold_left
    (fun acc p =>
       if negb (get s (fst p) (snd p) =? get gl (fst p) (snd p))
       then acc + 1 else acc)
    cells 0.

(** Manhattan distance.  The two inner loops look for the value of cell
    [(i, j)] in the goal, add the distance at the first hit and leave by
    the [found] flag. *)
Fixpoint scan_l (v : Z) (gl : Grid) (i j k : nat) (ls : list nat) (acc : Z)
  : bool * Z :=
  match ls with
  | [] => (false, acc)
  | l :: ls' =>
    if v =? get gl k l
    then (true, acc + (Z.abs (Z.of_nat i - Z.of_nat k)
                       + Z.abs (Z.of_nat j - Z.of_nat l)))
    else scan_l v gl i j k ls' acc
  end.

Fixpoint scan_k (v : Z) (gl : Grid) (i j : nat) (ks : list nat) (acc : Z)
  : Z :=
  match ks with
  | [] => acc
  | k :: ks' =>
    let '(found, acc') := scan_l v gl i j k columns acc in
    if found then acc' else scan_k v gl i j ks' acc'
  end.

Definition manhattan (s gl : Grid) : Z :=
  fold_left
    (fun acc p => scan_k (get s (fst p) (snd p)) gl (fst p) (snd p) rows acc)
    cells 0.

Definition heuristic (H : Heuristic) (s gl : Grid) : Z :=
  match H with
  | MISPLACED_TILES => misplaced s gl
  | MANHATTAN => manhattan s gl
  end.

Definition getHeuristic (H : Heuristic) (this : AStar) : AStar :=
  mkAStar (a this) (goal this) (g this) (heuristic H (a this) (goal this))
          (f this) (parent this).

(** [AStar::getTotalCost], applied to the global [childNode]. *)
Definition getTotalCost (H : Heuristic) (childNode : AStar) : AStar :=
  let c1 := mkAStar (a childNode) (goal childNode) (g childNode + 1)
                    (h childNode) (f childNode) (parent childNode) in
  let c2 := getHeuristic H c1 in
  mkAStar (a c2) (goal c2) (g c2) (h c2) (g c2 + h c2) (parent c2).

(** [AStar::setChildState]: returns the (constant) result and the new
    globals. *)
Definition setChildState (H : Heuristic) (childNode : AStar) (st : Globals)
  : bool * Globals :=
  let st1 := mkGlobals (fringe st) (closed st) (nodesGenerated st + 1)
                       (nodesExpanded st) in
  if negb (isExplored (closed st1) childNode)
  then (false,
        mkGlobals (fringe st1 ++ [getTotalCost H childNode]) (closed st1)
                  (nodesGenerated st1) (nodesExpanded st1))
  else (false, st1).

(** *** [AStar::getSuccessors] *)

(** One of the four blocks
    [childNode = currentNode; childNode.parent = &(closed.back());
     swap(...); if (setChildState()) ...]. *)
Definition spawn (H : Heuristic) (currentNode : AStar) (i j k l : nat)
                 (st : Globals) : bool * Globals :=
  let childNode :=
    mkAStar (swap (a currentNode) i j k l) (goal currentNode)
            (g currentNode) (h currentNode) (f currentNode)
            (Some (Nat.pred (length (closed st)))) in
  setChildState H childNode st.

(** The body of the inner loop at cell [(i, j)]; the result [true] stands
    for [isGoalReached = true; break;]. *)
Definition at_cell (H : Heuristic) (currentNode : AStar) (i j : nat)
                   (st : Globals) : bool * Globals :=
  if get (a currentNode) i j =? 0 then
    let '(b1, st1) :=
      if (0 <? i)%nat then spawn H currentNode i j (i - 1) j st
      else (false, st) in
    if b1 then (true, st1) else
    let '(b2, st2) :=
      if (i <? MAX_ROWS - 1)%nat then spawn H currentNode i j (i + 1) j st1
      else (false, st1) in
    if b2 then (true, st2) else
    let '(b3, st3) :=
      if (0 <? j)%nat then spawn H currentNode i j i (j - 1) st2
      else (false, st2) in
    if b3 then (true, st3) else
    let '(b4, st4) :=
      if (j <? MAX_COLUMNS - 1)%nat then spawn H currentNode i j i (j + 1) st3
      else (false, st3) in
    if b4 then (true, st4) else (false, st4)
  else (false, st).

(** The inner loop over [j]; it is left as soon as a cell breaks. *)
Fixpoint loop_j (H : Heuristic) (currentNode : AStar) (i : nat)
                (js : list nat) (st : Globals) : bool * Globals :=
  match js with
  | [] => (false, st)
  | j :: js' =>
    let '(b, st') := at_cell H currentNode i j st in
    if b then (true, st') else loop_j H currentNode i js' st'
  end.

(** The outer loop over [i], with its [if (isGoalReached) break;]. *)
Fixpoint loop_i (H : Heuristic) (currentNode : AStar) (rs : list nat)
                (st : Globals) : bool * Globals :=
  match rs with
  | [] => (false, st)
  | i :: rs' =>
    let '(b, st') := loop_j H currentNode i columns st in
    if b then (true, st') else loop_i H currentNode rs' st'
  end.

(** [fringe.remove(currentNode)] removes every element that [operator==]
    finds equal to [currentNode]. *)
Definition remove (currentNode : AStar) (l : list AStar) : list AStar :=
  filter (fun it => negb (eq_op it currentNode)) l.

Definition getSuccessors (H : Heuristic) (currentNode : AStar) (st : Globals)
  : bool * Globals :=
  let st0 := mkGlobals (fringe st) (closed st ++ [currentNode])
                       (nodesGenerated st) (nodesExpanded st) in
  let '(isGoalReached, st1) := loop_i H currentNode rows st0 in
  (isGoalReached,
   mkGlobals (remove currentNode (fringe st1)) (closed st1)
             (nodesGenerated st1) (nodesExpanded st1)).

(** *** [AStar::printPath]

    The recursion follows [parent] until [NULL] and prints on the way
    back, so the start comes first.  [nth_error] dereferences a pointer
    into [closed]; the result [None] stands for a chain that leaves
    [closed] or does not end within the fuel. *)
Fixpoint printPath (fuel : nat) (cl : list AStar) (cur : AStar)
  : option (list Grid) :=
  match fuel with
  | O => None
  | S fuel' =>
    match parent cur with
    | None => Some [a cur]
    | Some p =>
      match nth_error cl p with
      | None => None
      | Some pn =>
        match printPath fuel' cl pn with
        | None => None
        | Some l => Some (l ++ [a cur])
        end
      end
    end
  end.

(** *** [AStar::solve] *)

(** What a run of [solve] can come to. *)
Inductive Outcome : Type :=
| Printed (path : list Grid) (st : Globals)
    (* the goal test succeeded: the path was printed, [return] *)
| Broke (st : Globals)
    (* left the loop by [if (isGoalReached) break;] *)
| FrontOfEmpty (st : Globals)
    (* [fringe.front()] was called on an empty list: undefined behaviour *)
| BrokenChain (st : Globals)
    (* [printPath] did not come to an end *)
| OutOfFuel (st : Globals).

(** The selection loop: [currentNode = fringe.front()], then every element
    of the fringe that [operator<] puts before [currentNode] replaces it. *)
Definition select (front : AStar) (fr : list AStar) : AStar :=
  fold_left (fun currentNode it => if lt_op it currentNode then it
                                   else currentNode)
            fr front.

(** One turn of the [while (true)] loop: either the run ends or the
    globals for the next turn are returned. *)
Definition step (H : Heuristic) (st : Globals) : Outcome + Globals :=
  match fringe st with
  | [] => inl (FrontOfEmpty st)
  | front :: _ =>
    let currentNode := select front (fringe st) in
    if isGoal currentNode then
      let st' := mkGlobals (fringe st) (closed st) (nodesGenerated st)
                           (Z.of_nat (length (closed st))) in
      match printPath (S (length (closed st'))) (closed st') currentNode with
      | Some path => inl (Printed path st')
      | None => inl (BrokenChain st')
      end
    else
      let '(isGoalReached, st') := getSuccessors H currentNode st in
      if isGoalReached then inl (Broke st') else inr st'
  end.

Fixpoint loop (H : Heuristic) (fuel : nat) (st : Globals) : Outcome :=
  match fuel with
  | O => OutOfFuel st
  | S fuel' =>
    match step H st with
    | inl out => out
    | inr st' => loop H fuel' st'
    end
  end.

Definition init_globals : Globals := mkGlobals [] [] 0 0.

(** [solve], entered with the globals [st]: [currentNode = startNode;
    fringe.push_back(currentNode);] and then the loop. *)
Definition solve (H : Heuristic) (fuel : nat) (startNode : AStar)
                 (st : Globals) : Outcome :=
  loop H fuel
       (mkGlobals (fringe st ++ [startNode]) (closed st) (nodesGenerated st)
                  (nodesExpanded st)).

(** [main]: the two grids are read, the start node gets [g = 0], its
    heuristic value, [f = g + h] and no parent, and [solve] runs on the
    freshly initialised globals. *)
Definition start_node (H : Heuristic) (start gl : Grid) : AStar :=
  let n0 := mkAStar start gl 0 0 0 None in
  let n1 := getHeuristic H n0 in
  mkAStar (a n1) (goal n1) (g n1) (h n1) (g n1 + h n1) None.

Definition main (H : Heuristic) (fuel : nat) (start gl : Grid) : Outcome :=
  solve H fuel (start_node H start gl) init_globals.

(** ** Concrete grids *)

Definition grid_of (l : list Z) : Grid :=
  mkGrid (nth 0 l 0) (nth 1 l 0) (nth 2 l 0)
         (nth 3 l 0) (nth 4 l 0) (nth 5 l 0)
         (nth 6 l 0) (nth 7 l 0) (nth 8 l 0).

Definition std_goal : Grid := grid_of [1;2;3;4;5;6;7;8;0].

(** ** The sliding-tile domain *)

Definition in_bounds (i j : nat) : Prop :=
  (i < MAX_ROWS)%nat /\ (j < MAX_COLUMNS)%nat.

(** Two cells are adjacent when they are next to each other in a row or in
    a column. *)
Definition adjacent (i j k l : nat) : Prop :=
  (i = k /\ (j = S l \/ l = S j)) \/ (j = l /\ (i = S k \/ k = S i)).

(** One slide: a blank at [(i, j)] changes places with the cell at an
    adjacent position [(k, l)] of the grid. *)
Definition slide (s s' : Grid) : Prop :=
  exists i j k l,
    in_bounds i j /\ in_bounds k l /\ adjacent i j k l /\
    get s i j = 0 /\ s' = swap s i j k l.

(** [slides n s t]: [t] is reached from [s] by [n] slides. *)
Inductive slides : nat -> Grid -> Grid -> Prop :=
| slides_O : forall s, slides 0 s s
| slides_S : forall n s s' t, slide s s' -> slides n s' t -> slides (S n) s t.

(** Two grids that differ by one slide. *)
Definition one_swap (s s' : Grid) : Prop := slide s s' /\ s <> s'.

(** A sequence of grids in which each grid differs by one slide from the
    one before it. *)
Fixpoint contiguous (l : list Grid) : Prop :=
  match l with
  | x :: (y :: _) as tl => one_swap x y /\ contiguous tl
  | _ => True
  end.

(** A grid is valid when it holds each of 0..8 exactly once.  The program
    has no such test; the predicate serves to state what holds of the
    grids that the puzzle is about. *)
Definition is_valid (s : Grid) : bool :=
  forallb (fun v => (count_occ Z.eq_dec (to_list s) v =? 1)%nat)
          (map Z.of_nat (seq 0 9)).

(** The positions next to [(i, j)], in the order in which
    [getSuccessors] tries them: up, down, left, right. *)
Definition neighbours (i j : nat) : list (nat * nat) :=
  (if (0 <? i)%nat then [((i - 1)%nat, j)] else []) ++
  (if (i <? MAX_ROWS - 1)%nat then [((i + 1)%nat, j)] else []) ++
  (if (0 <? j)%nat then [(i, (j - 1)%nat)] else []) ++
  (if (j <? MAX_COLUMNS - 1)%nat then [(i, (j + 1)%nat)] else []).

Definition moves_at (s : Grid) (p : nat * nat) : list Grid :=
  if get s (fst p) (snd p) =? 0
  then map (fun q => swap s (fst p) (snd p) (fst q) (snd q))
           (neighbours (fst p) (snd p))
  else [].

(** All grids one slide from [s], in generation order. *)
Definition moves (s : Grid) : list Grid := flat_map (moves_at s) cells.

Definition slide_b (s s' : Grid) : bool := existsb (grid_eqb s') (moves s).

Fixpoint contiguous_b (l : list Grid) : bool :=
  match l with
  | x :: (y :: _) as tl =>
    slide_b x y && negb (grid_eqb x y) && contiguous_b tl
  | _ => true
  end.

(** ** What one expansion does *)

(** The node that [setChildState] pushes for the grid [s'] made from
    [currentNode], whose copy in [closed] has position [p]. *)
Definition child_of (H : Heuristic) (currentNode : AStar) (p : nat)
                    (s' : Grid) : AStar :=
  getTotalCost H (mkAStar s' (goal currentNode) (g currentNode)
                          (h currentNode) (f currentNode) (Some p)).

(** The effect of one [spawn] on the globals. *)
Definition push (H : Heuristic) (currentNode : AStar) (st : Globals)
                (s' : Grid) : Globals :=
  snd (setChildState H
         (mkAStar s' (goal currentNode) (g currentNode) (h currentNode)
                  (f currentNode) (Some (Nat.pred (length (closed st)))))
         st).

(** The grids that are not the grid of a node of [cl]. *)
Definition fresh (cl : list AStar) (s' : Grid) : bool :=
  negb (existsb (fun it => grid_eqb (a it) s') cl).

(** The globals after [currentNode] has been expanded. *)
Definition expand (H : Heuristic) (currentNode : AStar) (st : Globals)
  : Globals :=
  let cl := closed st ++ [currentNode] in
  mkGlobals
    (remove currentNode
       (fringe st ++
        map (child_of H currentNode (length (closed st)))
            (filter (fresh cl) (moves (a currentNode)))))
    cl
    (nodesGenerated st + Z.of_nat (length (moves (a currentNode))))
    (nodesExpanded st).

(** ** The search states of a run *)

(** The globals with which the loop of [solve] is entered from [main]. *)
Definition seed (H : Heuristic) (start gl : Grid) : Globals :=
  mkGlobals [start_node H start gl] [] 0 0.

(** [reach H st0 st]: the loop entered with [st0] comes to its head with
    the globals [st]. *)
Inductive reach (H : Heuristic) (st0 : Globals) : Globals -> Prop :=
| reach_here : reach H st0 st0
| reach_next : forall st st',
    reach H st0 st -> step H st = inr st' -> reach H st0 st'.

(** [chain cl n l]: following [parent] from [n] through [cl] ends at a node
    without parent, and [l] lists the grids met, the last one first
    reached from the root. *)
Inductive chain (cl : list AStar) : AStar -> list Grid -> Prop :=
| chain_root : forall n, parent n = None -> chain cl n [a n]
| chain_link : forall n p pn l,
    parent n = Some p -> nth_error cl p = Some pn -> chain cl pn l ->
    chain cl n (l ++ [a n]).

(** A node is well formed when it carries the goal of the run, its [f] is
    the sum of its [g] and of the heuristic of its grid, and its parent
    chain is a contiguous sequence of [g + 1] grids that begins with the
    start grid. *)
Definition wf_node (H : Heuristic) (start gl : Grid) (cl : list AStar)
                   (bound : nat) (n : AStar) : Prop :=
  goal n = gl /\
  f n = g n + heuristic H (a n) gl /\
  exists l, chain cl n l /\ hd_error l = Some start /\ contiguous l /\
            Z.of_nat (length l) = g n + 1 /\ (length l <= S bound)%nat.

Record Inv (H : Heuristic) (start gl : Grid) (st : Globals) : Prop := {
  inv_closed : forall k c, nth_error (closed st) k = Some c ->
                           wf_node H start gl (closed st) k c;
  inv_fringe : forall n, In n (fringe st) ->
                         wf_node H start gl (closed st) (length (closed st)) n;
  inv_disj : forall n, In n (fringe st) -> ~ In (a n) (map a (closed st));
  inv_nodup : NoDup (map a (closed st));
  inv_notgoal : forall c, In c (closed st) -> a c <> gl;
  inv_succ : forall c s', In c (closed st) -> slide (a c) s' ->
      In s' (map a (closed st)) \/
      exists m, In m (fringe st) /\ a m = s' /\ g m <= g c + 1;
  inv_start : In start (map a (closed st)) \/
              exists m, In m (fringe st) /\ a m = start /\ g m <= 0
}.

(** ** Sums over the cells of a grid *)

(** [gsum t s] adds [t i j (s[i][j])] over the cells, in loop order. *)
Definition gsum (t : nat -> nat -> Z -> Z) (s : Grid) : Z :=
  fold_left (fun acc p => acc + t (fst p) (snd p) (get s (fst p) (snd p)))
            cells 0.

(** What [getHeuristic] adds for the value [v] in cell [(i, j)]. *)
Definition misplaced_term (gl : Grid) (i j : nat) (v : Z) : Z :=
  if negb (v =? get gl i j) then 1 else 0.

Definition manhattan_term (gl : Grid) (i j : nat) (v : Z) : Z :=
  scan_k v gl i j rows 0.

(** The misplaced-tiles count split into the tiles and the blank. *)
Definition tile_term (gl : Grid) (i j : nat) (v : Z) : Z :=
  if negb (v =? 0) && negb (v =? get gl i j) then 1 else 0.

Definition blank_term (gl : Grid) (i j : nat) (v : Z) : Z :=
  if (v =? 0) && negb (v =? get gl i j) then 1 else 0.

(** The number of cells of [s] that hold [v]. *)
Definition count (v : Z) (s : Grid) : Z :=
  gsum (fun _ _ x => if x =? v then 1 else 0) s.

(** The colour of the cell of the blank on a chessboard colouring, summed
    over the blanks there are. *)
Definition blank_colour (s : Grid) : Z :=
  gsum (fun i j x => if x =? 0 then Z.of_nat ((i + j) mod 2) else 0) s.

(** ** The grids that can be written with given values *)

Definition all_grids (vals : list Z) : list Grid :=
  flat_map (fun x00 => flat_map (fun x01 => flat_map (fun x02 =>
  flat_map (fun x10 => flat_map (fun x11 => flat_map (fun x12 =>
  flat_map (fun x20 => flat_map (fun x21 =>
  map (fun x22 => mkGrid x00 x01 x02 x10 x11 x12 x20 x21 x22) vals)
  vals) vals) vals) vals) vals) vals) vals) vals.

(** The closed nodes carry the least cost at which their grid can be
    reached from [start]. *)
Definition Opt (start : Grid) (st : Globals) : Prop :=
  forall c, In c (closed st) ->
  forall k, slides k start (a c) -> g c <= Z.of_nat k.

(** ** Inversions

    [inversions s] counts the pairs of tiles that stand in the wrong order
    when the grid is read row by row, the blank left out. *)

Definition inv_pair (x y : Z) : Z :=
  if (x =? 0) || (y =? 0) then 0 else if y <? x then 1 else 0.

Fixpoint inv_from (x : Z) (l : list Z) : Z :=
  match l with
  | [] => 0
  | y :: l' => inv_pair x y + inv_from x l'
  end.

Fixpoint inv_list (l : list Z) : Z :=
  match l with
  | [] => 0
  | x :: l' => inv_from x l' + inv_list l'
  end.

Definition inversions (s : Grid) : Z := inv_list (to_list s).

(** The largest value of an [int]. *)
Definition INT_MAX : Z := 2147483647.

(** ** Output: [AStar::print]

    [cout] is modelled by the text written so far, which every output
    operation extends. *)

(** [cout << endl] writes a line feed, [cout << " "] a blank. *)
Definition endl : String.string :=
  String.String (Ascii.ascii_of_nat 10) String.EmptyString.
Definition blank_char : Ascii.ascii := Ascii.ascii_of_nat 32.

(** [cout << v] for an [int]: decimal digits, a minus sign before a
    negative number. *)
Definition cout_int (v : Z) : String.string :=
  DecimalString.NilZero.string_of_int (Z.to_int v).

(** One turn of the outer loop of [print]: the inner loop writes each
    cell of row [i] followed by a blank, then the line is ended. *)
Definition print_row (s : Grid) (i : nat) (out : String.string)
  : String.string :=
  String.append
    (fold_left (fun o j => String.append
                             (String.append o (cout_int (get s i j)))
                             (String.String blank_char String.EmptyString))
               columns out)
    endl.

(** [AStar::print]: the three rows and an empty line. *)
Definition print (s : Grid) (out : String.string) : String.string :=
  String.append (fold_left (fun o i => print_row s i o) rows out) endl.

(** [AStar::printPath] with its output: the parent is printed first, then
    the node itself. *)
Fixpoint printPath_text (fuel : nat) (cl : list AStar) (cur : AStar)
                        (out : String.string) : option String.string :=
  match fuel with
  | O => None
  | S fuel' =>
    match parent cur with
    | None => Some (print (a cur) out)
    | Some p =>
      match nth_error cl p with
      | None => None
      | Some pn =>
        match printPath_text fuel' cl pn out with
        | None => None
        | Some out' => Some (print (a cur) out')
        end
      end
    end
  end.

(** The text of a sequence of grids printed one after the other. *)
Fixpoint path_text (l : list Grid) (out : String.string) : String.string :=
  match l with
  | [] => out
  | s :: l' => path_text l' (print s out)
  end.

(** A text without blanks. *)
Fixpoint no_blank (s : String.string) : Prop :=
  match s with
  | String.EmptyString => True
  | String.String c s' => c <> blank_char /\ no_blank s'
  end.

(** The text of a cell, of a row and of a grid, each followed by the text
    [rest]. *)
Definition cell_text (v : Z) (rest : String.string) : String.string :=
  String.append (cout_int v) (String.String blank_char rest).

Definition row_text (x y z : Z) (rest : String.string) : String.string :=
  cell_text x (cell_text y (cell_text z (String.append endl rest))).

Definition grid_text (s : Grid) (rest : String.string) : String.string :=
  row_text (a00 s) (a01 s) (a02 s)
    (row_text (a10 s) (a11 s) (a12 s)
       (row_text (a20 s) (a21 s) (a22 s) (String.append endl rest))).

(** ** Grids: equality and updates *)

Lemma grid_eqb_eq (s t : Grid) : grid_eqb s t = true <-> s = t.
Proof.
  destruct s, t; unfold grid_eqb; cbn.
  rewrite !andb_true_iff, !Z.eqb_eq.
  split.
  - intros (? & ? & ? & ? & ? & ? & ? & ? & ? & _). congruence.
  - intros E. injection E as -> -> -> -> -> -> -> -> ->. tauto.
Qed.

Lemma grid_eqb_refl (s : Grid) : grid_eqb s s = true.
Proof. now apply grid_eqb_eq. Qed.

Lemma grid_eqb_neq (s t : Grid) : grid_eqb s t = false <-> s <> t.
Proof.
  rewrite <- grid_eqb_eq. destruct (grid_eqb s t); intuition congruence.
Qed.

Lemma grid_eq_dec (s t : Grid) : {s = t} + {s <> t}.
Proof.
  destruct (grid_eqb s t) eqn:E.
  - left. now apply grid_eqb_eq.
  - right. now apply grid_eqb_neq.
Qed.

Lemma isExplored_true (cl : list AStar) (cur : AStar) :
  isExplored cl cur = true <-> In (a cur) (map a cl).
Proof.
  unfold isExplored, eq_op. rewrite existsb_exists, in_map_iff.
  split; intros (x & Hx1 & Hx2).
  - exists x. split; [now apply grid_eqb_eq | assumption].
  - exists x. split; [assumption | now apply grid_eqb_eq].
Qed.

Lemma isExplored_false (cl : list AStar) (cur : AStar) :
  isExplored cl cur = false <-> ~ In (a cur) (map a cl).
Proof.
  rewrite <- isExplored_true.
  destruct (isExplored cl cur); intuition congruence.
Qed.

Lemma in_remove (cur n : AStar) (l : list AStar) :
  In n (remove cur l) <-> In n l /\ a n <> a cur.
Proof.
  unfold remove, eq_op. rewrite filter_In, negb_true_iff, grid_eqb_neq. tauto.
Qed.

(** Enumeration of the positions of the grid. *)
Ltac all_positions i j Hb :=
  let Hi := fresh in let Hj := fresh in
  destruct Hb as [Hi Hj]; unfold MAX_ROWS, MAX_COLUMNS in Hi, Hj;
  destruct i as [|[|[|i]]]; [ | | | exfalso; lia];
  (destruct j as [|[|[|j]]]; [ | | | exfalso; lia]);
  clear Hi Hj.

Lemma in_cells (i j : nat) : In (i, j) cells <-> in_bounds i j.
Proof.
  unfold in_bounds, MAX_ROWS, MAX_COLUMNS. split.
  - cbn. intros Hc.
    repeat (destruct Hc as [Hc | Hc]; [injection Hc as <- <-; lia | ]).
    destruct Hc.
  - intros Hb. all_positions i j Hb; cbn; tauto.
Qed.

Lemma in_neighbours (i j k l : nat) :
  in_bounds i j ->
  In (k, l) (neighbours i j) <-> in_bounds k l /\ adjacent i j k l.
Proof.
  intros Hb. unfold adjacent, in_bounds.
  all_positions i j Hb; cbn; split;
    try (intros Hn;
         repeat (destruct Hn as [Hn | Hn];
                 [injection Hn as <- <-; unfold MAX_ROWS, MAX_COLUMNS; lia | ]);
         now destruct Hn);
    intros [[H1 H2] H3]; unfold MAX_ROWS, MAX_COLUMNS in *;
    (destruct k as [|[|[|k]]]; [ | | | exfalso; lia]);
    (destruct l as [|[|[|l]]]; [ | | | exfalso; lia]);
    try tauto; exfalso; lia.
Qed.

(** [moves] lists exactly the slides. *)
Lemma in_moves (s s' : Grid) : In s' (moves s) <-> slide s s'.
Proof.
  unfold moves, slide. rewrite in_flat_map. split.
  - intros ([i j] & Hc & Hm). unfold moves_at in Hm; cbn [fst snd] in Hm.
    destruct (Z.eqb_spec (get s i j) 0) as [E | E]; [ | destruct Hm].
    apply in_map_iff in Hm. destruct Hm as ([k l] & <- & Hn).
    apply in_cells in Hc. apply in_neighbours in Hn; [ | assumption].
    exists i, j, k, l. cbn [fst snd]. tauto.
  - intros (i & j & k & l & Hb & Hb' & Ha & E & ->).
    exists (i, j). split; [now apply in_cells | ].
    unfold moves_at; cbn [fst snd]. rewrite E, Z.eqb_refl.
    apply in_map_iff. exists (k, l). split; [reflexivity | ].
    apply in_neighbours; tauto.
Qed.

Lemma slide_b_true (s s' : Grid) : slide_b s s' = true <-> slide s s'.
Proof.
  unfold slide_b. rewrite existsb_exists, <- in_moves. split.
  - intros (x & Hx & E). apply grid_eqb_eq in E. now subst.
  - intros Hm. exists s'. split; [assumption | apply grid_eqb_refl].
Qed.

Lemma contiguous_b_true (l : list Grid) :
  contiguous_b l = true -> contiguous l.
Proof.
  induction l as [| x l IH]; [easy | ].
  destruct l as [| y tl]; [easy | ].
  intros Hb.
  change (slide_b x y && negb (grid_eqb x y) && contiguous_b (y :: tl)
          = true) in Hb.
  apply andb_true_iff in Hb. destruct Hb as [Hs Hc].
  apply andb_true_iff in Hs. destruct Hs as [Hs Hne].
  split; [ | now apply IH].
  split; [now apply slide_b_true | ].
  apply grid_eqb_neq. now apply negb_true_iff.
Qed.

(** ** [getSuccessors] never reports the goal *)

Lemma setChildState_false (H : Heuristic) (c : AStar) (st : Globals) :
  fst (setChildState H c st) = false.
Proof.
  unfold setChildState. now destruct (negb _).
Qed.

Lemma spawn_eq (H : Heuristic) (cur : AStar) (i j k l : nat) (st : Globals) :
  spawn H cur i j k l st = (false, push H cur st (swap (a cur) i j k l)).
Proof.
  unfold spawn, push.
  match goal with |- ?x = _ => rewrite (surjective_pairing x) end.
  now rewrite setChildState_false.
Qed.

Lemma at_cell_eq (H : Heuristic) (cur : AStar) (i j : nat) (st : Globals) :
  at_cell H cur i j st
  = (false, fold_left (push H cur) (moves_at (a cur) (i, j)) st).
Proof.
  unfold at_cell, moves_at, neighbours; cbn [fst snd].
  destruct (get (a cur) i j =? 0); [ | reflexivity].
  rewrite !spawn_eq.
  destruct (0 <? i)%nat, (i <? MAX_ROWS - 1)%nat, (0 <? j)%nat,
           (j <? MAX_COLUMNS - 1)%nat; cbn; rewrite ?spawn_eq; reflexivity.
Qed.

Lemma loop_j_eq (H : Heuristic) (cur : AStar) (i : nat) (js : list nat)
                (st : Globals) :
  loop_j H cur i js st
  = (false,
     fold_left (push H cur)
               (flat_map (moves_at (a cur)) (map (fun j => (i, j)) js)) st).
Proof.
  revert st. induction js as [| j js IH]; intros st; [reflexivity | ].
  cbn [loop_j map flat_map]. rewrite at_cell_eq, IH, fold_left_app.
  reflexivity.
Qed.

Lemma loop_i_eq (H : Heuristic) (cur : AStar) (rs : list nat)
                (st : Globals) :
  loop_i H cur rs st
  = (false,
     fold_left (push H cur)
       (flat_map (moves_at (a cur))
                 (flat_map (fun i => map (fun j => (i, j)) columns) rs)) st).
Proof.
  revert st. induction rs as [| i rs IH]; intros st; [reflexivity | ].
  cbn [loop_i flat_map]. rewrite loop_j_eq, IH, flat_map_app, fold_left_app.
  reflexivity.
Qed.

Lemma fresh_isExplored (cl : list AStar) (c : AStar) :
  negb (isExplored cl c) = fresh cl (a c).
Proof. reflexivity. Qed.

Lemma push_eq (H : Heuristic) (cur : AStar) (st : Globals) (s' : Grid) :
  push H cur st s'
  = mkGlobals
      (fringe st ++
       (if fresh (closed st) s'
        then [child_of H cur (Nat.pred (length (closed st))) s'] else []))
      (closed st) (nodesGenerated st + 1) (nodesExpanded st).
Proof.
  unfold push, setChildState.
  cbn [closed fringe nodesGenerated nodesExpanded].
  rewrite fresh_isExplored. cbn [a].
  destruct (fresh (closed st) s'); cbn [snd]; [reflexivity | ].
  now rewrite app_nil_r.
Qed.

Lemma fold_push (H : Heuristic) (cur : AStar) (ss : list Grid)
                (st : Globals) :
  fold_left (push H cur) ss st
  = mkGlobals
      (fringe st ++
       map (child_of H cur (Nat.pred (length (closed st))))
           (filter (fresh (closed st)) ss))
      (closed st)
      (nodesGenerated st + Z.of_nat (length ss))
      (nodesExpanded st).
Proof.
  revert st. induction ss as [| s' ss IH]; intros st.
  - cbn. rewrite app_nil_r, Z.add_0_r. now destruct st.
  - cbn [fold_left]. rewrite IH, push_eq.
    cbn [closed fringe nodesGenerated nodesExpanded filter length].
    rewrite <- app_assoc.
    replace (nodesGenerated st + 1 + Z.of_nat (length ss))
      with (nodesGenerated st + Z.of_nat (S (length ss))) by lia.
    now destruct (fresh (closed st) s').
Qed.

Lemma getSuccessors_eq (H : Heuristic) (cur : AStar) (st : Globals) :
  getSuccessors H cur st = (false, expand H cur st).
Proof.
  unfold getSuccessors, expand. rewrite loop_i_eq, fold_push.
  cbn [fringe closed nodesGenerated nodesExpanded].
  rewrite length_app. cbn [length]. rewrite Nat.add_1_r. reflexivity.
Qed.

(** ** Selection *)

Lemma select_in (front : AStar) (fr : list AStar) :
  select front fr = front \/ In (select front fr) fr.
Proof.
  unfold select. revert front.
  induction fr as [| x fr IH]; intros front; cbn; [now left | ].
  destruct (IH (if lt_op x front then x else front)) as [E | Hin];
    [ | now right; right].
  rewrite E. destruct (lt_op x front); [right; now left | now left].
Qed.

Lemma select_le_front (front : AStar) (fr : list AStar) :
  f (select front fr) <= f front.
Proof.
  unfold select. revert front.
  induction fr as [| x fr IH]; intros front; cbn; [lia | ].
  specialize (IH (if lt_op x front then x else front)).
  unfold lt_op in *. destruct (Z.leb_spec (f x) (f front)); lia.
Qed.

Lemma select_min (front : AStar) (fr : list AStar) (m : AStar) :
  In m fr -> f (select front fr) <= f m.
Proof.
  unfold select. revert front.
  induction fr as [| x fr IH]; intros front; cbn; [tauto | ].
  intros [<- | Hin]; [ | now apply IH].
  pose proof (select_le_front (if lt_op x front then x else front) fr) as Hle.
  unfold select, lt_op in *. destruct (Z.leb_spec (f x) (f front)); lia.
Qed.

(** The node chosen by one turn of the loop is in the fringe and no node
    of the fringe has a smaller [f]. *)
Lemma select_fringe (front : AStar) (rest : list AStar) :
  In (select front (front :: rest)) (front :: rest) /\
  forall m, In m (front :: rest) ->
            f (select front (front :: rest)) <= f m.
Proof.
  split.
  - destruct (select_in front (front :: rest)) as [E | Hin];
      [rewrite E; now left | assumption].
  - intros m. apply select_min.
Qed.

(** ** One turn of the loop *)

Lemma step_eq (H : Heuristic) (st : Globals) :
  step H st =
  match fringe st with
  | [] => inl (FrontOfEmpty st)
  | front :: _ =>
    let currentNode := select front (fringe st) in
    if isGoal currentNode then
      let st' := mkGlobals (fringe st) (closed st) (nodesGenerated st)
                           (Z.of_nat (length (closed st))) in
      match printPath (S (length (closed st))) (closed st) currentNode with
      | Some path => inl (Printed path st')
      | None => inl (BrokenChain st')
      end
    else inr (expand H currentNode st)
  end.
Proof.
  unfold step. destruct (fringe st) as [| front rest]; [reflexivity | ].
  cbv zeta. destruct (isGoal _); [reflexivity | ].
  now rewrite getSuccessors_eq.
Qed.

Lemma step_inr (H : Heuristic) (st st' : Globals) :
  step H st = inr st' ->
  exists cur, In cur (fringe st) /\
              (forall m, In m (fringe st) -> f cur <= f m) /\
              isGoal cur = false /\ st' = expand H cur st.
Proof.
  rewrite step_eq. destruct (fringe st) as [| front rest] eqn:Ef; [easy | ].
  cbv zeta. destruct (isGoal _) eqn:Eg.
  - now destruct (printPath _ _ _).
  - intros [= <-]. exists (select front (front :: rest)).
    destruct (select_fringe front rest) as [Hin Hmin]. tauto.
Qed.

(** ** Paths *)

Lemma slides_snoc (n : nat) (s t u : Grid) :
  slides n s t -> slide t u -> slides (S n) s u.
Proof.
  induction 1 as [s | n s s' t Hs Hss IH]; intros Hu.
  - eapply slides_S; [eassumption | constructor].
  - eapply slides_S; [eassumption | now apply IH].
Qed.

Lemma slides_app (n m : nat) (s t u : Grid) :
  slides n s t -> slides m t u -> slides (n + m) s u.
Proof.
  induction 1 as [s | n s s' t Hs Hss IH]; intros Hu; [assumption | ].
  cbn. eapply slides_S; [eassumption | now apply IH].
Qed.

Lemma slides_last (n : nat) (s u : Grid) :
  slides (S n) s u -> exists t, slides n s t /\ slide t u.
Proof.
  revert s. induction n as [| n IH]; intros s Hs.
  - inversion Hs as [| ? ? s' ? Hsl Hr]; subst. inversion Hr; subst.
    exists s. split; [constructor | assumption].
  - inversion Hs as [| ? ? s' ? Hsl Hr]; subst.
    destruct (IH _ Hr) as (t & Ht & Htu).
    exists t. split; [ | assumption]. eapply slides_S; eassumption.
Qed.

Lemma contiguous_snoc (l : list Grid) (x y : Grid) :
  contiguous (l ++ [x]) -> one_swap x y -> contiguous ((l ++ [x]) ++ [y]).
Proof.
  induction l as [| z l IH]; intros Hc Hs.
  - cbn. tauto.
  - destruct l as [| z' l].
    + cbn in *. tauto.
    + change (one_swap z z' /\ contiguous ((z' :: l) ++ [x])) in Hc.
      change (one_swap z z' /\ contiguous (((z' :: l) ++ [x]) ++ [y])).
      split; [tauto | apply IH; tauto].
Qed.

Lemma last_cons_default (x : Grid) (l : list Grid) (d d' : Grid) :
  last (x :: l) d = last (x :: l) d'.
Proof.
  revert x. induction l as [| y l IH]; intros x; [reflexivity | ].
  change (last (y :: l) d = last (y :: l) d'). apply IH.
Qed.

Lemma contiguous_slides (l : list Grid) (s t : Grid) :
  contiguous (s :: l) -> last (s :: l) s = t -> slides (length l) s t.
Proof.
  revert s. induction l as [| y l IH]; intros s Hc Hl.
  - cbn in Hl. subst. constructor.
  - destruct Hc as [[Hs _] Hc]. cbn [length].
    eapply slides_S; [eassumption | ]. apply IH; [assumption | ].
    rewrite <- Hl. change (last (y :: l) y = last (y :: l) s).
    apply last_cons_default.
Qed.

Lemma chain_last (cl : list AStar) (n : AStar) (l : list Grid) :
  chain cl n l -> exists l0, l = l0 ++ [a n].
Proof.
  destruct 1; [now exists [] | now eexists].
Qed.

Lemma chain_ext (cl ext : list AStar) (n : AStar) (l : list Grid) :
  chain cl n l -> chain (cl ++ ext) n l.
Proof.
  induction 1 as [n Hn | n p pn l Hp Hnth Hc IH].
  - now constructor.
  - apply chain_link with (p := p) (pn := pn); [assumption | | assumption].
    rewrite nth_error_app1; [assumption | ].
    apply nth_error_Some. congruence.
Qed.

Lemma chain_printPath (cl : list AStar) (n : AStar) (l : list Grid) :
  chain cl n l ->
  forall fuel, (length l <= fuel)%nat -> printPath fuel cl n = Some l.
Proof.
  induction 1 as [n Hn | n p pn l Hp Hnth Hc IH]; intros fuel Hf.
  - destruct fuel; [cbn in Hf; lia | ]. cbn. now rewrite Hn.
  - rewrite length_app in Hf. cbn in Hf.
    destruct fuel; [lia | ]. cbn. rewrite Hp, Hnth, IH; [reflexivity | lia].
Qed.

(** The parent chain of a well-formed node is a path of [g] slides from
    the start grid to the grid of the node. *)
Lemma wf_node_slides (H : Heuristic) (start gl : Grid) (cl : list AStar)
                     (b : nat) (n : AStar) :
  wf_node H start gl cl b n ->
  0 <= g n /\ slides (Z.to_nat (g n)) start (a n).
Proof.
  intros (_ & _ & l & Hc & Hh & Hcont & Hlen & _).
  destruct (chain_last _ _ _ Hc) as (l0 & ->).
  rewrite length_app in Hlen. cbn [length] in Hlen.
  split; [lia | ].
  replace (Z.to_nat (g n)) with (length l0) by lia.
  destruct l0 as [| s l0].
  - cbn in Hh. injection Hh as <-. constructor.
  - cbn in Hh. injection Hh as ->.
    replace (length (start :: l0)) with (length (l0 ++ [a n]))
      by (rewrite length_app; cbn; lia).
    apply contiguous_slides; [assumption | ].
    change (last (start :: l0 ++ [a n]) start)
      with (last ((start :: l0) ++ [a n]) start).
    apply last_last.
Qed.

Lemma wf_node_ext (H : Heuristic) (start gl : Grid) (cl ext : list AStar)
                  (b b' : nat) (n : AStar) :
  (b <= b')%nat -> wf_node H start gl cl b n ->
  wf_node H start gl (cl ++ ext) b' n.
Proof.
  intros Hb (Hg & Hf & l & Hc & Hh & Hcont & Hlen & Hbd).
  repeat split; try assumption.
  exists l. repeat split; try assumption; [now apply chain_ext | lia].
Qed.

(** ** The invariant of the loop *)

Lemma fresh_true (cl : list AStar) (s' : Grid) :
  fresh cl s' = true <-> ~ In s' (map a cl).
Proof.
  unfold fresh. rewrite negb_true_iff, <- not_true_iff_false, existsb_exists,
    in_map_iff.
  split; intros Hn (x & Hx1 & Hx2); apply Hn; exists x.
  - split; [assumption | now apply grid_eqb_eq].
  - split; [now apply grid_eqb_eq | assumption].
Qed.

Lemma in_expand_fringe (H : Heuristic) (cur : AStar) (st : Globals)
                       (n : AStar) :
  In n (fringe (expand H cur st)) <->
  (In n (fringe st) \/
   exists s', n = child_of H cur (length (closed st)) s' /\
              ~ In s' (map a (closed st ++ [cur])) /\ slide (a cur) s') /\
  a n <> a cur.
Proof.
  unfold expand; cbn [fringe]. rewrite in_remove, in_app_iff, in_map_iff.
  split; intros [[Hin | (s' & Hs1 & Hs2)] Hne]; (split; [ | assumption]);
    try (now left); right; exists s'.
  - apply filter_In in Hs2. rewrite fresh_true, in_moves in Hs2.
    split; [now symmetry | tauto].
  - split; [now symmetry | ].
    apply filter_In. rewrite fresh_true, in_moves. tauto.
Qed.

Lemma isGoal_false (n : AStar) : isGoal n = false <-> a n <> goal n.
Proof. unfold isGoal. apply grid_eqb_neq. Qed.

Lemma isGoal_true (n : AStar) : isGoal n = true <-> a n = goal n.
Proof. unfold isGoal. apply grid_eqb_eq. Qed.

Lemma Inv_seed (H : Heuristic) (start gl : Grid) :
  Inv H start gl (seed H start gl).
Proof.
  assert (Hw : wf_node H start gl [] 0 (start_node H start gl)).
  { repeat split. exists [start]. repeat split; cbn; try lia.
    now apply (chain_root [] (start_node H start gl)). }
  constructor; cbn [seed fringe closed map].
  - intros [| k] c; discriminate.
  - intros n [<- | []]. exact Hw.
  - intros n _ [].
  - constructor.
  - intros c [].
  - intros c s' [].
  - right. exists (start_node H start gl). cbn. intuition lia.
Qed.

Lemma Inv_expand (H : Heuristic) (start gl : Grid) (st : Globals)
                 (cur : AStar) :
  Inv H start gl st -> In cur (fringe st) -> isGoal cur = false ->
  Inv H start gl (expand H cur st).
Proof.
  intros I Hcur Hng.
  pose proof (inv_fringe _ _ _ _ I cur Hcur) as Hwcur.
  assert (Hcl : closed (expand H cur st) = closed st ++ [cur]) by reflexivity.
  constructor; rewrite ?Hcl.
  - (* closed nodes *)
    intros k c Hk.
    destruct (Nat.lt_ge_cases k (length (closed st))) as [Hlt | Hge].
    + rewrite nth_error_app1 in Hk by assumption.
      apply wf_node_ext with (b := k); [lia | ].
      now apply (inv_closed _ _ _ _ I).
    + rewrite nth_error_app2 in Hk by assumption.
      destruct (k - length (closed st))%nat as [| d] eqn:Ed;
        [ | destruct d; discriminate].
      injection Hk as <-. apply wf_node_ext with (b := length (closed st));
        [lia | assumption].
  - (* fringe nodes *)
    intros n Hn. apply in_expand_fringe in Hn.
    destruct Hn as [[Hin | (s' & -> & Hfr & Hsl)] _].
    + apply wf_node_ext with (b := length (closed st));
        [rewrite length_app; lia | ].
      now apply (inv_fringe _ _ _ _ I).
    + destruct Hwcur as (Hg & Hf & l & Hc & Hh & Hcont & Hlen & Hbd).
      split; [exact Hg | ]. split; [cbn; now rewrite Hg | ].
      exists (l ++ [s']). rewrite !length_app. cbn [length].
      split; [ | split; [ | split; [ | split]]].
      * apply chain_link with (p := length (closed st)) (pn := cur);
          [reflexivity | | now apply chain_ext].
        rewrite nth_error_app2, Nat.sub_diag by lia. reflexivity.
      * destruct l; [discriminate | assumption].
      * destruct (chain_last _ _ _ Hc) as (l0 & ->).
        apply contiguous_snoc; [assumption | ].
        split; [assumption | ]. intros E'. apply Hfr.
        rewrite map_app, in_app_iff. right. left. exact E'.
      * change (g (child_of H cur (length (closed st)) s')) with (g cur + 1).
        lia.
      * lia.
  - (* disjointness *)
    intros n Hn. apply in_expand_fringe in Hn.
    rewrite map_app, in_app_iff. cbn [map In].
    destruct Hn as [[Hin | (s' & -> & Hfr & Hsl)] Hne].
    + intros [Hc | [E | []]]; [ | congruence].
      now apply (inv_disj _ _ _ _ I n).
    + rewrite map_app, in_app_iff in Hfr. exact Hfr.
  - (* closed grids are distinct *)
    rewrite map_app. cbn [map].
    apply NoDup_app; [apply (inv_nodup _ _ _ _ I) | | ].
    + repeat constructor. intros [].
    + intros x Hx [<- | []]. now apply (inv_disj _ _ _ _ I cur).
  - (* the goal is never closed *)
    intros c Hc. apply in_app_iff in Hc. destruct Hc as [Hc | [<- | []]].
    + now apply (inv_notgoal _ _ _ _ I).
    + destruct Hwcur as (Hg & _). rewrite <- Hg. now apply isGoal_false.
  - (* successors of closed nodes *)
    intros c s' Hc Hsl.
    destruct (in_dec grid_eq_dec s' (map a (closed st ++ [cur])))
      as [Hin | Hnin]; [now left | right].
    apply in_app_iff in Hc. destruct Hc as [Hc | [<- | []]].
    + destruct (inv_succ _ _ _ _ I c s' Hc Hsl) as [Hin | (m & Hm & E & Hle)].
      * exfalso. apply Hnin. rewrite map_app, in_app_iff. now left.
      * exists m. split; [ | tauto]. apply in_expand_fringe.
        split; [now left | ]. intros E'. apply Hnin.
        rewrite map_app, in_app_iff. right. left. congruence.
    + exists (child_of H cur (length (closed st)) s').
      split; [ | cbn; split; [reflexivity | lia]].
      apply in_expand_fringe. split; [right; now exists s' | ].
      cbn. intros E'. apply Hnin. rewrite map_app, in_app_iff.
      right. left. congruence.
  - (* the start grid *)
    destruct (inv_start _ _ _ _ I) as [Hin | (m & Hm & E & Hle)].
    + left. rewrite map_app, in_app_iff. now left.
    + destruct (grid_eq_dec (a m) (a cur)) as [E' | E'].
      * left. rewrite map_app, in_app_iff. right. left. congruence.
      * right. exists m. split; [ | tauto]. apply in_expand_fringe.
        split; [now left | assumption].
Qed.

Lemma Inv_step (H : Heuristic) (start gl : Grid) (st st' : Globals) :
  Inv H start gl st -> step H st = inr st' -> Inv H start gl st'.
Proof.
  intros I Hs. apply step_inr in Hs.
  destruct Hs as (cur & Hin & _ & Hg & ->). now apply Inv_expand.
Qed.

Lemma Inv_reach (H : Heuristic) (start gl : Grid) (st : Globals) :
  reach H (seed H start gl) st -> Inv H start gl st.
Proof.
  induction 1 as [| st st' _ IH Hs]; [apply Inv_seed | ].
  now apply Inv_step with (st := st).
Qed.

(** ** Runs of the loop *)

Lemma main_eq (H : Heuristic) (fuel : nat) (start gl : Grid) :
  main H fuel start gl = loop H fuel (seed H start gl).
Proof. reflexivity. Qed.

(** Whatever a run comes to, it comes to it at a loop head that the run
    reaches. *)
Lemma loop_reach (H : Heuristic) (st0 : Globals) (fuel : nat) :
  forall st out,
    reach H st0 st -> loop H fuel st = out ->
    (exists st', reach H st0 st' /\ out = OutOfFuel st' /\
                 length (closed st') = (length (closed st) + fuel)%nat)
    \/ (exists st', reach H st0 st' /\ step H st' = inl out).
Proof.
  induction fuel as [| fuel IH]; intros st out Hr Hl.
  - left. exists st. cbn in Hl. subst. rewrite Nat.add_0_r. tauto.
  - cbn in Hl. destruct (step H st) as [o | st1] eqn:Es.
    + right. exists st. subst. tauto.
    + assert (Hr1 : reach H st0 st1) by (eapply reach_next; eassumption).
      destruct (IH st1 out Hr1 Hl) as [(st' & Hr' & E & Hlen) | Hstop];
        [left | now right].
      exists st'. split; [assumption | split; [assumption | ]].
      apply step_inr in Es. destruct Es as (cur & _ & _ & _ & ->).
      cbn [expand closed] in Hlen. rewrite length_app in Hlen. cbn in Hlen.
      lia.
Qed.

(** More fuel does not change what a finished run came to. *)
Lemma loop_more (H : Heuristic) (fuel : nat) :
  forall st out fuel',
    loop H fuel st = out -> (forall st', out <> OutOfFuel st') ->
    (fuel <= fuel')%nat -> loop H fuel' st = out.
Proof.
  induction fuel as [| fuel IH]; intros st out fuel' Hl Hn Hle.
  - cbn in Hl. subst. now contradiction (Hn st).
  - destruct fuel' as [| fuel']; [lia | ]. cbn in *.
    destruct (step H st) as [o | st1]; [assumption | ].
    apply IH; [assumption | assumption | lia].
Qed.

(** An ending turn of the loop prints the parent chain of the node it
    selected, which is at the goal. *)
Lemma step_printed (H : Heuristic) (start gl : Grid) (st st' : Globals)
                   (path : list Grid) :
  Inv H start gl st -> step H st = inl (Printed path st') ->
  exists cur, In cur (fringe st) /\
              (forall m, In m (fringe st) -> f cur <= f m) /\
              a cur = gl /\ chain (closed st) cur path /\
              wf_node H start gl (closed st) (length (closed st)) cur /\
              st' = mkGlobals (fringe st) (closed st) (nodesGenerated st)
                              (Z.of_nat (length (closed st))).
Proof.
  intros I. rewrite step_eq.
  destruct (fringe st) as [| front rest] eqn:Ef; [discriminate | ].
  cbv zeta. destruct (isGoal _) eqn:Eg; [ | discriminate].
  destruct (select_fringe front rest) as [Hin Hmin].
  set (cur := select front (front :: rest)) in *.
  assert (Hw : wf_node H start gl (closed st) (length (closed st)) cur)
    by (apply (inv_fringe _ _ _ _ I); now rewrite Ef).
  pose proof Hw as (Hg & _ & l & Hc & _ & _ & _ & Hbd).
  rewrite (chain_printPath _ _ _ Hc) by assumption.
  intros [= <- <-]. exists cur. apply isGoal_true in Eg.
  split; [assumption | ]. split; [assumption | ].
  split; [congruence | ]. split; [assumption | ].
  split; [assumption | reflexivity].
Qed.

Lemma step_not_broke (H : Heuristic) (st st' : Globals) :
  step H st <> inl (Broke st').
Proof.
  rewrite step_eq. destruct (fringe st); [discriminate | ].
  cbv zeta. destruct (isGoal _); [ | discriminate].
  now destruct (printPath _ _ _).
Qed.

Lemma step_not_broken_chain (H : Heuristic) (start gl : Grid)
                            (st st' : Globals) :
  Inv H start gl st -> step H st <> inl (BrokenChain st').
Proof.
  intros I. rewrite step_eq.
  destruct (fringe st) as [| front rest] eqn:Ef; [discriminate | ].
  cbv zeta. destruct (isGoal _) eqn:Eg; [ | discriminate].
  destruct (select_fringe front rest) as [Hin Hmin].
  assert (Hw : wf_node H start gl (closed st) (length (closed st))
                       (select front (front :: rest)))
    by (apply (inv_fringe _ _ _ _ I); now rewrite Ef).
  destruct Hw as (_ & _ & l & Hc & _ & _ & _ & Hbd).
  now rewrite (chain_printPath _ _ _ Hc) by assumption.
Qed.

(** ** Sums over cells *)

Lemma gsum_unfold (t : nat -> nat -> Z -> Z) (s : Grid) :
  gsum t s =
  t 0%nat 0%nat (a00 s) + t 0%nat 1%nat (a01 s) + t 0%nat 2%nat (a02 s) +
  t 1%nat 0%nat (a10 s) + t 1%nat 1%nat (a11 s) + t 1%nat 2%nat (a12 s) +
  t 2%nat 0%nat (a20 s) + t 2%nat 1%nat (a21 s) + t 2%nat 2%nat (a22 s).
Proof. unfold gsum. cbn. ring. Qed.

Lemma gsum_ext (t t' : nat -> nat -> Z -> Z) (s : Grid) :
  (forall i j v, t i j v = t' i j v) -> gsum t s = gsum t' s.
Proof. intros E. rewrite !gsum_unfold, !E. reflexivity. Qed.

Lemma gsum_le (t t' : nat -> nat -> Z -> Z) (s : Grid) :
  (forall i j v, t i j v <= t' i j v) -> gsum t s <= gsum t' s.
Proof.
  intros E. rewrite !gsum_unfold.
  pose proof (E 0%nat 0%nat (a00 s)). pose proof (E 0%nat 1%nat (a01 s)).
  pose proof (E 0%nat 2%nat (a02 s)). pose proof (E 1%nat 0%nat (a10 s)).
  pose proof (E 1%nat 1%nat (a11 s)). pose proof (E 1%nat 2%nat (a12 s)).
  pose proof (E 2%nat 0%nat (a20 s)). pose proof (E 2%nat 1%nat (a21 s)).
  pose proof (E 2%nat 2%nat (a22 s)). lia.
Qed.

Lemma gsum_add (t t' : nat -> nat -> Z -> Z) (s : Grid) :
  gsum (fun i j v => t i j v + t' i j v) s = gsum t s + gsum t' s.
Proof. rewrite !gsum_unfold. ring. Qed.

Lemma gsum_nonneg (t : nat -> nat -> Z -> Z) (s : Grid) :
  (forall i j v, 0 <= t i j v) -> 0 <= gsum t s.
Proof.
  intros E. assert (E0 : gsum (fun _ _ _ => 0) s = 0)
    by (rewrite gsum_unfold; reflexivity).
  rewrite <- E0. now apply gsum_le.
Qed.

(** The sum after two cells have changed places. *)
Lemma gsum_swap (t : nat -> nat -> Z -> Z) (s : Grid) (i j k l : nat) :
  in_bounds i j -> in_bounds k l -> (i, j) <> (k, l) ->
  gsum t (swap s i j k l)
  = gsum t s - t i j (get s i j) - t k l (get s k l)
    + t i j (get s k l) + t k l (get s i j).
Proof.
  intros Hb Hb' Hne. rewrite !gsum_unfold. destruct s.
  all_positions i j Hb; all_positions k l Hb';
    try (exfalso; apply Hne; reflexivity); cbn; ring.
Qed.

(** Two distinct cells weigh no more than the whole sum. *)
Lemma gsum_two (t : nat -> nat -> Z -> Z) (s : Grid) (i j k l : nat) :
  (forall i j v, 0 <= t i j v) ->
  in_bounds i j -> in_bounds k l -> (i, j) <> (k, l) ->
  t i j (get s i j) + t k l (get s k l) <= gsum t s.
Proof.
  intros E Hb Hb' Hne. rewrite !gsum_unfold.
  pose proof (E 0%nat 0%nat (a00 s)). pose proof (E 0%nat 1%nat (a01 s)).
  pose proof (E 0%nat 2%nat (a02 s)). pose proof (E 1%nat 0%nat (a10 s)).
  pose proof (E 1%nat 1%nat (a11 s)). pose proof (E 1%nat 2%nat (a12 s)).
  pose proof (E 2%nat 0%nat (a20 s)). pose proof (E 2%nat 1%nat (a21 s)).
  pose proof (E 2%nat 2%nat (a22 s)).
  all_positions i j Hb; all_positions k l Hb';
    try (exfalso; apply Hne; reflexivity); cbn; lia.
Qed.

Lemma adjacent_neq (i j k l : nat) : adjacent i j k l -> (i, j) <> (k, l).
Proof. unfold adjacent. intros Ha [= -> ->]. lia. Qed.

(** ** The heuristics as sums *)

Lemma fold_left_pointwise (B : Type) (f1 f2 : Z -> B -> Z) (l : list B) :
  (forall z p, f1 z p = f2 z p) ->
  forall z, fold_left f1 l z = fold_left f2 l z.
Proof.
  intros E. induction l as [| p l IH]; intros z; [reflexivity | ].
  cbn. rewrite E. apply IH.
Qed.

Lemma misplaced_gsum (s gl : Grid) :
  misplaced s gl = gsum (misplaced_term gl) s.
Proof.
  unfold misplaced, gsum, misplaced_term.
  apply fold_left_pointwise. intros z p.
  destruct (negb _); [reflexivity | now rewrite Z.add_0_r].
Qed.

Lemma scan_l_acc (v : Z) (gl : Grid) (i j k : nat) (ls : list nat) (z : Z) :
  scan_l v gl i j k ls z
  = (fst (scan_l v gl i j k ls 0), z + snd (scan_l v gl i j k ls 0)).
Proof.
  induction ls as [| l ls IH]; cbn.
  - now rewrite Z.add_0_r.
  - destruct (v =? get gl k l); [reflexivity | exact IH].
Qed.

Lemma scan_k_acc (v : Z) (gl : Grid) (i j : nat) (ks : list nat) (z : Z) :
  scan_k v gl i j ks z = z + scan_k v gl i j ks 0.
Proof.
  revert z. induction ks as [| k ks IH]; intros z; cbn [scan_k].
  - now rewrite Z.add_0_r.
  - rewrite (scan_l_acc v gl i j k columns z).
    destruct (scan_l v gl i j k columns 0) as [found z'] eqn:E.
    cbn [fst snd]. destruct found; [reflexivity | ].
    rewrite IH, (IH z'). ring.
Qed.

Lemma manhattan_gsum (s gl : Grid) :
  manhattan s gl = gsum (manhattan_term gl) s.
Proof.
  unfold manhattan, gsum, manhattan_term.
  apply fold_left_pointwise. intros z p. apply scan_k_acc.
Qed.

Lemma heuristic_gsum (H : Heuristic) (s gl : Grid) :
  heuristic H s gl
  = gsum (match H with
          | MISPLACED_TILES => misplaced_term gl
          | MANHATTAN => manhattan_term gl
          end) s.
Proof. destruct H; [apply misplaced_gsum | apply manhattan_gsum]. Qed.

Lemma misplaced_term_range (gl : Grid) (i j : nat) (v : Z) :
  0 <= misplaced_term gl i j v <= 1.
Proof. unfold misplaced_term. destruct (negb _); lia. Qed.



Lemma adjacent_sym (i j k l : nat) : adjacent i j k l -> adjacent k l i j.
Proof. unfold adjacent. lia. Qed.


(** ** Valid grids *)

Lemma count_occ_sum (l : list Z) (v : Z) :
  Z.of_nat (count_occ Z.eq_dec l v)
  = fold_right (fun x acc => (if x =? v then 1 else 0) + acc) 0 l.
Proof.
  induction l as [| x l IH]; [reflexivity | ].
  cbn [count_occ fold_right]. rewrite <- IH.
  destruct (Z.eq_dec x v), (Z.eqb_spec x v); try congruence; lia.
Qed.

Lemma count_spec (v : Z) (s : Grid) :
  count v s = Z.of_nat (count_occ Z.eq_dec (to_list s) v).
Proof.
  rewrite count_occ_sum. unfold count. rewrite gsum_unfold.
  destruct s. cbn. ring.
Qed.

Lemma is_valid_count (s : Grid) (v : Z) :
  is_valid s = true -> 0 <= v <= 8 -> count v s = 1.
Proof.
  unfold is_valid. rewrite forallb_forall. intros Hv Hr.
  rewrite count_spec.
  assert (Hin : In v (map Z.of_nat (seq 0 9))).
  { apply in_map_iff. exists (Z.to_nat v). split; [lia | ].
    apply in_seq. lia. }
  apply Hv in Hin. apply Nat.eqb_eq in Hin. lia.
Qed.

Lemma count_swap (v : Z) (s : Grid) (i j k l : nat) :
  in_bounds i j -> in_bounds k l -> (i, j) <> (k, l) ->
  count v (swap s i j k l) = count v s.
Proof.
  intros Hb Hb' Hne. unfold count. rewrite gsum_swap by assumption. ring.
Qed.

Lemma count_slide (v : Z) (s s' : Grid) :
  slide s s' -> count v s' = count v s.
Proof.
  intros (i & j & k & l & Hb & Hb' & Ha & E0 & ->).
  apply count_swap; try assumption. now apply adjacent_neq.
Qed.

Lemma is_valid_same_counts (s s' : Grid) :
  (forall v, count v s' = count v s) -> is_valid s' = is_valid s.
Proof.
  intros E. unfold is_valid.
  assert (E' : forall v, count_occ Z.eq_dec (to_list s') v
                         = count_occ Z.eq_dec (to_list s) v).
  { intros v. specialize (E v). rewrite !count_spec in E. lia. }
  induction (map Z.of_nat (seq 0 9)) as [| v vs IH]; [reflexivity | ].
  cbn [forallb]. now rewrite E', IH.
Qed.

Lemma is_valid_slide (s s' : Grid) :
  slide s s' -> is_valid s' = is_valid s.
Proof.
  intros Hs. apply is_valid_same_counts. intros v. now apply count_slide.
Qed.

Lemma is_valid_slides (n : nat) (s t : Grid) :
  slides n s t -> is_valid t = is_valid s.
Proof.
  induction 1 as [| n s s' t Hs _ IH]; [reflexivity | ].
  rewrite IH. now apply is_valid_slide.
Qed.

(** The cells of a valid grid are pairwise different. *)
Lemma is_valid_NoDup (s : Grid) : is_valid s = true -> NoDup (to_list s).
Proof.
  intros Hv.
  apply NoDup_incl_NoDup with (l := map Z.of_nat (seq 0 9)).
  - cbn. repeat (constructor; [cbn; intuition lia | ]). constructor.
  - reflexivity.
  - intros v Hin. apply in_map_iff in Hin. destruct Hin as (n & <- & Hn).
    apply in_seq in Hn. apply (count_occ_In Z.eq_dec).
    assert (E : count (Z.of_nat n) s = 1)
      by (apply is_valid_count; [assumption | lia]).
    rewrite count_spec in E. lia.
Qed.

(** In a valid grid the neighbour with which the blank changes places is
    not a blank. *)
Lemma valid_neighbour_nonzero (s : Grid) (i j k l : nat) :
  is_valid s = true -> in_bounds i j -> in_bounds k l -> (i, j) <> (k, l) ->
  get s i j = 0 -> get s k l <> 0.
Proof.
  intros Hv Hb Hb' Hne E0 E1.
  assert (Hc : count 0 s = 1) by (apply is_valid_count; [assumption | lia]).
  unfold count in Hc.
  assert (Hnn : forall (i j : nat) (v : Z), 0 <= (if v =? 0 then 1 else 0))
    by (intros ? ? v; destruct (v =? 0); lia).
  pose proof (gsum_two (fun _ _ x => if x =? 0 then 1 else 0) s i j k l
                Hnn Hb Hb' Hne) as H2.
  cbv beta in H2. rewrite E0, E1, Z.eqb_refl in H2. lia.
Qed.

(** ** Parity of the paths between two grids *)

Lemma colour_adjacent (i j k l : nat) :
  adjacent i j k l ->
  Z.of_nat ((i + j) mod 2) + Z.of_nat ((k + l) mod 2) = 1.
Proof.
  unfold adjacent. intros Ha.
  assert (E : (k + l = S (i + j) \/ i + j = S (k + l))%nat) by lia.
  destruct E as [-> | ->].
  - pose proof (Nat.mod_upper_bound (i + j) 2).
    pose proof (Nat.mod_upper_bound (S (i + j)) 2).
    pose proof (Nat.div_mod_eq (i + j) 2).
    pose proof (Nat.div_mod_eq (S (i + j)) 2). lia.
  - pose proof (Nat.mod_upper_bound (k + l) 2).
    pose proof (Nat.mod_upper_bound (S (k + l)) 2).
    pose proof (Nat.div_mod_eq (k + l) 2).
    pose proof (Nat.div_mod_eq (S (k + l)) 2). lia.
Qed.

Lemma blank_colour_slide (s s' : Grid) :
  is_valid s = true -> slide s s' ->
  blank_colour s' + blank_colour s = 2 * blank_colour s + 1 \/
  blank_colour s' + blank_colour s = 2 * blank_colour s - 1.
Proof.
  intros Hv (i & j & k & l & Hb & Hb' & Ha & E0 & ->).
  pose proof (adjacent_neq _ _ _ _ Ha) as Hne.
  pose proof (valid_neighbour_nonzero s i j k l Hv Hb Hb' Hne E0) as Hnz.
  unfold blank_colour. rewrite gsum_swap by assumption. rewrite E0.
  apply Z.eqb_neq in Hnz. rewrite Hnz. cbn [Z.eqb].
  pose proof (colour_adjacent _ _ _ _ Ha).
  pose proof (Nat.mod_upper_bound (i + j) 2).
  pose proof (Nat.mod_upper_bound (k + l) 2). lia.
Qed.

Lemma blank_colour_slides (n : nat) (s t : Grid) :
  is_valid s = true -> slides n s t ->
  exists d, blank_colour t = blank_colour s + Z.of_nat n + 2 * d.
Proof.
  intros Hv Hs. induction Hs as [s | n s s' t Hs Hss IH].
  - exists 0. lia.
  - assert (Hv' : is_valid s' = true) by (now rewrite (is_valid_slide s s')).
    destruct (IH Hv') as (d & ->).
    destruct (blank_colour_slide s s' Hv Hs) as [E | E].
    + exists d. lia.
    + exists (d - 1). lia.
Qed.

(** All slide sequences between two valid grids have lengths of the same
    parity. *)
Lemma slides_parity (n m : nat) (s t : Grid) :
  is_valid s = true -> slides n s t -> slides m s t ->
  exists d, Z.of_nat n = Z.of_nat m + 2 * d.
Proof.
  intros Hv Hn Hm.
  destruct (blank_colour_slides n s t Hv Hn) as (d1 & E1).
  destruct (blank_colour_slides m s t Hv Hm) as (d2 & E2).
  exists (d2 - d1). lia.
Qed.

(** ** The misplaced-tiles heuristic along a path *)

Lemma misplaced_split (s gl : Grid) :
  misplaced s gl = gsum (tile_term gl) s + gsum (blank_term gl) s.
Proof.
  rewrite misplaced_gsum, <- gsum_add. apply gsum_ext. intros i j v.
  unfold misplaced_term, tile_term, blank_term.
  destruct (v =? 0), (negb (v =? get gl i j)); reflexivity.
Qed.

Lemma tile_term_range (gl : Grid) (i j : nat) (v : Z) :
  0 <= tile_term gl i j v <= 1.
Proof. unfold tile_term. destruct (_ && _); lia. Qed.

Lemma tiles_slide (gl s s' : Grid) :
  slide s s' -> gsum (tile_term gl) s <= gsum (tile_term gl) s' + 1.
Proof.
  intros (i & j & k & l & Hb & Hb' & Ha & E0 & ->).
  rewrite gsum_swap by (try assumption; now apply adjacent_neq).
  rewrite E0.
  assert (Ez : forall i j, tile_term gl i j 0 = 0) by reflexivity.
  rewrite !Ez.
  pose proof (tile_term_range gl i j (get s k l)).
  pose proof (tile_term_range gl k l (get s k l)). lia.
Qed.

Lemma tiles_slides (gl : Grid) (n : nat) (s t : Grid) :
  slides n s t ->
  gsum (tile_term gl) s <= gsum (tile_term gl) t + Z.of_nat n.
Proof.
  induction 1 as [| n s s' t Hs _ IH]; [lia | ].
  pose proof (tiles_slide gl s s' Hs). lia.
Qed.

Lemma blank_range (gl s : Grid) :
  is_valid s = true -> 0 <= gsum (blank_term gl) s <= 1.
Proof.
  intros Hv. split.
  - apply gsum_nonneg. intros i j v. unfold blank_term.
    destruct (_ && _); lia.
  - assert (Hc : count 0 s = 1) by (apply is_valid_count; [assumption | lia]).
    rewrite <- Hc. unfold count. apply gsum_le. intros i j v.
    unfold blank_term. destruct (v =? 0), (negb _); cbn; lia.
Qed.

(** Along a path of [n] slides between valid grids the misplaced-tiles
    heuristic falls by [n + 1] at most. *)
Lemma misplaced_slides (gl : Grid) (n : nat) (s t : Grid) :
  is_valid s = true -> slides n s t ->
  misplaced s gl <= misplaced t gl + Z.of_nat n + 1.
Proof.
  intros Hv Hs.
  assert (Hv' : is_valid t = true) by (now rewrite (is_valid_slides n s t)).
  rewrite !misplaced_split.
  pose proof (tiles_slides gl n s t Hs).
  pose proof (blank_range gl s Hv). pose proof (blank_range gl t Hv'). lia.
Qed.

(** ** Both heuristics vanish at the goal *)

Lemma misplaced_goal (gl : Grid) : misplaced gl gl = 0.
Proof.
  rewrite misplaced_gsum, gsum_unfold. unfold misplaced_term.
  destruct gl; cbn. rewrite !Z.eqb_refl. reflexivity.
Qed.

Lemma NoDup_cons_inv (x : Z) (l : list Z) :
  NoDup (x :: l) -> ~ In x l /\ NoDup l.
Proof. inversion 1; tauto. Qed.

Lemma manhattan_goal (gl : Grid) : is_valid gl = true -> manhattan gl gl = 0.
Proof.
  intros Hv. apply is_valid_NoDup in Hv.
  rewrite manhattan_gsum, gsum_unfold. unfold manhattan_term.
  destruct gl. cbn in Hv.
  repeat (apply NoDup_cons_inv in Hv; destruct Hv as [? Hv]).
  cbn in *.
  repeat match goal with
  | |- context [?x =? ?y] =>
      destruct (Z.eqb_spec x y); [try (exfalso; tauto) | try congruence]
  end; reflexivity.
Qed.



Lemma loop_not_broke (H : Heuristic) (fuel : nat) :
  forall st st', loop H fuel st <> Broke st'.
Proof.
  induction fuel as [| fuel IH]; intros st st'; [discriminate | ].
  cbn. destruct (step H st) as [o | st1] eqn:Es; [ | apply IH].
  intros ->. now apply (step_not_broke H st st').
Qed.

(** ** Every run ends *)

Lemma in_all_grids (vals : list Z) (s : Grid) :
  (forall x, In x (to_list s) -> In x vals) -> In s (all_grids vals).
Proof.
  intros Hin. destruct s as [x00 x01 x02 x10 x11 x12 x20 x21 x22].
  assert (Hc : forall x, In x [x00; x01; x02; x10; x11; x12; x20; x21; x22] ->
                         In x vals) by exact Hin.
  clear Hin. unfold all_grids.
  apply in_flat_map; exists x00; split; [apply Hc; cbn; tauto | ].
  apply in_flat_map; exists x01; split; [apply Hc; cbn; tauto | ].
  apply in_flat_map; exists x02; split; [apply Hc; cbn; tauto | ].
  apply in_flat_map; exists x10; split; [apply Hc; cbn; tauto | ].
  apply in_flat_map; exists x11; split; [apply Hc; cbn; tauto | ].
  apply in_flat_map; exists x12; split; [apply Hc; cbn; tauto | ].
  apply in_flat_map; exists x20; split; [apply Hc; cbn; tauto | ].
  apply in_flat_map; exists x21; split; [apply Hc; cbn; tauto | ].
  apply in_map_iff. exists x22. split; [reflexivity | ].
  apply Hc. cbn. tauto.
Qed.

Lemma slides_same_counts (n : nat) (s t : Grid) (v : Z) :
  slides n s t -> count v t = count v s.
Proof.
  induction 1 as [| n s s' t Hs _ IH]; [reflexivity | ].
  rewrite IH. now apply count_slide.
Qed.

Lemma slides_in_all_grids (n : nat) (s t : Grid) :
  slides n s t -> In t (all_grids (to_list s)).
Proof.
  intros Hs. apply in_all_grids. intros x Hx.
  apply (count_occ_In Z.eq_dec) in Hx. apply (count_occ_In Z.eq_dec).
  pose proof (slides_same_counts n s t x Hs) as E.
  rewrite !count_spec in E. lia.
Qed.

(** The closed list holds pairwise different grids, all written with the
    values of the start grid: its length is bounded. *)
Lemma closed_bounded (H : Heuristic) (start gl : Grid) (st : Globals) :
  Inv H start gl st ->
  (length (closed st) <= length (all_grids (to_list start)))%nat.
Proof.
  intros I. rewrite <- (length_map a (closed st)).
  apply NoDup_incl_length; [apply (inv_nodup _ _ _ _ I) | ].
  intros s Hs. apply in_map_iff in Hs. destruct Hs as (c & <- & Hc).
  apply In_nth_error in Hc. destruct Hc as (k & Hk).
  pose proof (inv_closed _ _ _ _ I k c Hk) as Hw.
  apply wf_node_slides in Hw. destruct Hw as [_ Hw].
  exact (slides_in_all_grids _ _ _ Hw).
Qed.

Lemma step_not_out_of_fuel (H : Heuristic) (st st' : Globals) :
  step H st <> inl (OutOfFuel st').
Proof.
  rewrite step_eq. destruct (fringe st); [discriminate | ].
  cbv zeta. destruct (isGoal _); [ | discriminate].
  now destruct (printPath _ _ _).
Qed.

(** With enough fuel a run either prints a path or comes to
    [fringe.front()] on the empty fringe. *)
Lemma run_ends (H : Heuristic) (start gl : Grid) :
  exists fuel st,
    (exists path, main H fuel start gl = Printed path st) \/
    main H fuel start gl = FrontOfEmpty st.
Proof.
  exists (S (length (all_grids (to_list start)))).
  rewrite main_eq.
  destruct (loop H (S (length (all_grids (to_list start))))
                 (seed H start gl)) as [path st | st | st | st | st] eqn:El.
  - exists st. left. now exists path.
  - now contradiction (loop_not_broke H _ _ _ El).
  - exists st. now right.
  - destruct (loop_reach H _ _ _ _ (reach_here H _) El)
      as [(st' & _ & E & _) | (st' & Hr & Hs)]; [discriminate | ].
    apply Inv_reach in Hr.
    now contradiction (step_not_broken_chain H start gl st' st Hr).
  - destruct (loop_reach H _ _ _ _ (reach_here H _) El)
      as [(st' & Hr & E & Hlen) | (st' & Hr & Hs)].
    + apply Inv_reach in Hr. apply closed_bounded in Hr.
      cbn [seed closed length] in Hlen. lia.
    + now contradiction (step_not_out_of_fuel H st' st).
Qed.

(** Every grid that can be reached from the start grid is closed or lies
    behind a node of the fringe. *)
Lemma frontier (H : Heuristic) (start gl : Grid) (st : Globals) (k : nat)
               (s : Grid) :
  Inv H start gl st -> slides k start s ->
  In s (map a (closed st)) \/
  exists m j, In m (fringe st) /\ slides j (a m) s.
Proof.
  intros I. revert s. induction k as [| k IH]; intros s Hs.
  - inversion Hs; subst.
    destruct (inv_start _ _ _ _ I) as [Hin | (m & Hm & E & _)];
      [now left | right].
    exists m, 0%nat. split; [assumption | ]. rewrite E. constructor.
  - apply slides_last in Hs. destruct Hs as (t & Ht & Hts).
    destruct (IH t Ht) as [Hin | (m & j & Hm & Hj)].
    + apply in_map_iff in Hin. destruct Hin as (c & <- & Hc).
      destruct (inv_succ _ _ _ _ I c s Hc Hts) as [Hin | (m & Hm & E & _)];
        [now left | right].
      exists m, 0%nat. split; [assumption | ]. rewrite E. constructor.
    + right. exists m, (S j). split; [assumption | ].
      now apply slides_snoc with (t := t).
Qed.

(** A run ends at the empty fringe only if the goal cannot be reached. *)
Lemma front_of_empty_unsolvable (H : Heuristic) (fuel : nat)
                                (start gl : Grid) (st : Globals) :
  main H fuel start gl = FrontOfEmpty st -> forall k, ~ slides k start gl.
Proof.
  rewrite main_eq. intros El k Hk.
  destruct (loop_reach H _ _ _ _ (reach_here H _) El)
    as [(st' & _ & E & _) | (st' & Hr & Hs)]; [discriminate | ].
  apply Inv_reach in Hr.
  rewrite step_eq in Hs. destruct (fringe st') as [| front rest] eqn:Ef.
  - destruct (frontier H start gl st' k gl Hr Hk) as [Hin | (m & j & Hm & _)].
    + apply in_map_iff in Hin. destruct Hin as (c & E & Hc).
      now apply (inv_notgoal _ _ _ _ Hr c Hc).
    + rewrite Ef in Hm. destruct Hm.
  - cbv zeta in Hs. destruct (isGoal _); [ | discriminate].
    now destruct (printPath _ _ _).
Qed.

(** A run prints a path only if the goal can be reached. *)
Lemma printed_solvable (H : Heuristic) (fuel : nat) (start gl : Grid)
                       (path : list Grid) (st : Globals) :
  main H fuel start gl = Printed path st -> exists k, slides k start gl.
Proof.
  rewrite main_eq. intros El.
  destruct (loop_reach H _ _ _ _ (reach_here H _) El)
    as [(st' & _ & E & _) | (st' & Hr & Hs)]; [discriminate | ].
  apply Inv_reach in Hr.
  destruct (step_printed _ _ _ _ _ _ Hr Hs) as (cur & _ & _ & Ea & _ & Hw & _).
  apply wf_node_slides in Hw. destruct Hw as [_ Hw].
  rewrite Ea in Hw. exists (Z.to_nat (g cur)). exact Hw.
Qed.

(** ** The costs and the counters fit in an [int]

    The record fields [g], [h], [f] and the two counters are [int]
    variables of the source and are modelled by [Z] without wrap-around.
    The lemmas of this section show that no run on a valid start grid
    takes them out of the range of an [int]. *)

Lemma length_flat_map_const (A B : Type) (fn : A -> list B) (l : list A)
                            (m : nat) :
  (forall x, length (fn x) = m) -> length (flat_map fn l) = (length l * m)%nat.
Proof.
  intros E. induction l as [| x l IH]; [reflexivity | ].
  cbn [flat_map length]. rewrite length_app, E, IH. lia.
Qed.

Lemma length_all_grids (vals : list Z) :
  length (all_grids vals) = (length vals ^ 9)%nat.
Proof.
  unfold all_grids.
  rewrite (length_flat_map_const _ _ _ vals (length vals ^ 8));
    [cbn [Nat.pow]; lia | intros x00].
  rewrite (length_flat_map_const _ _ _ vals (length vals ^ 7));
    [cbn [Nat.pow]; lia | intros x01].
  rewrite (length_flat_map_const _ _ _ vals (length vals ^ 6));
    [cbn [Nat.pow]; lia | intros x02].
  rewrite (length_flat_map_const _ _ _ vals (length vals ^ 5));
    [cbn [Nat.pow]; lia | intros x10].
  rewrite (length_flat_map_const _ _ _ vals (length vals ^ 4));
    [cbn [Nat.pow]; lia | intros x11].
  rewrite (length_flat_map_const _ _ _ vals (length vals ^ 3));
    [cbn [Nat.pow]; lia | intros x12].
  rewrite (length_flat_map_const _ _ _ vals (length vals ^ 2));
    [cbn [Nat.pow]; lia | intros x20].
  rewrite (length_flat_map_const _ _ _ vals (length vals ^ 1));
    [cbn [Nat.pow]; lia | intros x21].
  rewrite length_map. cbn [Nat.pow]. lia.
Qed.

Lemma closed_at_most (H : Heuristic) (start gl : Grid) (st : Globals) :
  Inv H start gl st -> Z.of_nat (length (closed st)) <= 387420489.
Proof.
  intros I. apply closed_bounded in I. rewrite length_all_grids in I.
  unfold to_list in I. rewrite length_map in I.
  change (length cells) with 9%nat in I.
  apply Nat2Z.inj_le in I. rewrite Nat2Z.inj_pow in I.
  change (Z.of_nat 9 ^ Z.of_nat 9) with 387420489 in I. exact I.
Qed.

Lemma manhattan_term_range (gl : Grid) (v : Z) (i j : nat) :
  (i <= 2)%nat -> (j <= 2)%nat -> 0 <= manhattan_term gl i j v <= 4.
Proof.
  intros Hi Hj.
  unfold manhattan_term, rows, MAX_ROWS. cbn [seq scan_k].
  unfold columns, MAX_COLUMNS. cbn [seq scan_l].
  repeat match goal with
  | |- context [v =? get gl ?k ?l] =>
      destruct (v =? get gl k l); [cbn; lia | ]
  end.
  cbn. lia.
Qed.

Lemma heuristic_range (H : Heuristic) (s gl : Grid) :
  0 <= heuristic H s gl <= 36.
Proof.
  rewrite heuristic_gsum, gsum_unfold. destruct H.
  - pose proof (misplaced_term_range gl) as R.
    pose proof (R 0%nat 0%nat (a00 s)). pose proof (R 0%nat 1%nat (a01 s)).
    pose proof (R 0%nat 2%nat (a02 s)). pose proof (R 1%nat 0%nat (a10 s)).
    pose proof (R 1%nat 1%nat (a11 s)). pose proof (R 1%nat 2%nat (a12 s)).
    pose proof (R 2%nat 0%nat (a20 s)). pose proof (R 2%nat 1%nat (a21 s)).
    pose proof (R 2%nat 2%nat (a22 s)). lia.
  - assert (R : forall v i j, (i <= 2)%nat -> (j <= 2)%nat ->
                              0 <= manhattan_term gl i j v <= 4)
      by (intros; now apply manhattan_term_range).
    pose proof (R (a00 s) 0%nat 0%nat). pose proof (R (a01 s) 0%nat 1%nat).
    pose proof (R (a02 s) 0%nat 2%nat). pose proof (R (a10 s) 1%nat 0%nat).
    pose proof (R (a11 s) 1%nat 1%nat). pose proof (R (a12 s) 1%nat 2%nat).
    pose proof (R (a20 s) 2%nat 0%nat). pose proof (R (a21 s) 2%nat 1%nat).
    pose proof (R (a22 s) 2%nat 2%nat). lia.
Qed.

Lemma length_neighbours (i j : nat) : (length (neighbours i j) <= 4)%nat.
Proof.
  unfold neighbours.
  destruct (0 <? i)%nat, (i <? MAX_ROWS - 1)%nat, (0 <? j)%nat,
           (j <? MAX_COLUMNS - 1)%nat; cbn; lia.
Qed.

Lemma length_moves_at (s : Grid) (cs : list (nat * nat)) :
  Z.of_nat (length (flat_map (moves_at s) cs))
  <= 4 * fold_right (fun p acc =>
                       (if get s (fst p) (snd p) =? 0 then 1 else 0) + acc)
                    0 cs.
Proof.
  induction cs as [| p cs IH]; [cbn; lia | ].
  cbn [flat_map fold_right]. rewrite length_app. unfold moves_at at 1.
  destruct (get s (fst p) (snd p) =? 0).
  - rewrite length_map. pose proof (length_neighbours (fst p) (snd p)). lia.
  - cbn [length]. lia.
Qed.

(** A valid grid has four neighbours at most. *)
Lemma length_moves (s : Grid) :
  is_valid s = true -> (length (moves s) <= 4)%nat.
Proof.
  intros Hv.
  assert (Hc : count 0 s = 1) by (apply is_valid_count; [assumption | lia]).
  pose proof (length_moves_at s cells) as Hle. fold (moves s) in Hle.
  assert (E : fold_right (fun p acc =>
                (if get s (fst p) (snd p) =? 0 then 1 else 0) + acc) 0 cells
              = count 0 s).
  { unfold count. rewrite gsum_unfold. destruct s. cbn. ring. }
  rewrite E, Hc in Hle. lia.
Qed.

Lemma generated_bounded (H : Heuristic) (start gl : Grid) (st : Globals) :
  is_valid start = true -> reach H (seed H start gl) st ->
  0 <= nodesGenerated st <= 4 * Z.of_nat (length (closed st)).
Proof.
  intros Hv. induction 1 as [| st st' Hr IH Hs]; [cbn; lia | ].
  apply Inv_reach in Hr. apply step_inr in Hs.
  destruct Hs as (cur & Hin & _ & _ & ->).
  cbn [expand nodesGenerated closed]. rewrite length_app. cbn [length].
  pose proof (inv_fringe _ _ _ _ Hr cur Hin) as Hw.
  apply wf_node_slides in Hw. destruct Hw as [_ Hw].
  apply is_valid_slides in Hw. rewrite Hv in Hw.
  pose proof (length_moves (a cur) Hw). lia.
Qed.

(** On a valid start grid the costs of the nodes and the counter of the
    generated nodes stay below [INT_MAX] at every head of the loop. *)
Lemma values_fit_int (H : Heuristic) (start gl : Grid) (st : Globals) :
  is_valid start = true -> reach H (seed H start gl) st ->
  (forall n, In n (fringe st) \/ In n (closed st) ->
             0 <= g n < INT_MAX /\ 0 <= f n < INT_MAX) /\
  0 <= nodesGenerated st < INT_MAX /\
  0 <= Z.of_nat (length (closed st)) < INT_MAX.
Proof.
  intros Hv Hr. pose proof (generated_bounded H start gl st Hv Hr) as Hg.
  apply Inv_reach in Hr. pose proof (closed_at_most H start gl st Hr) as Hc.
  unfold INT_MAX. split; [ | lia].
  assert (Hw : forall n b, (b <= length (closed st))%nat ->
                           wf_node H start gl (closed st) b n ->
                           0 <= g n < 2147483647 /\ 0 <= f n < 2147483647).
  { intros n b Hb (_ & Hf & l & Hch & _ & _ & Hlen & Hbd).
    destruct (chain_last _ _ _ Hch) as (l0 & ->).
    rewrite length_app in Hlen, Hbd. cbn [length] in Hlen, Hbd.
    pose proof (heuristic_range H (a n) gl). lia. }
  intros n [Hin | Hin].
  - apply (Hw n (length (closed st))); [lia | ].
    now apply (inv_fringe _ _ _ _ Hr).
  - apply In_nth_error in Hin. destruct Hin as (k & Hk).
    apply (Hw n k); [ | now apply (inv_closed _ _ _ _ Hr)].
    assert (k < length (closed st))%nat; [ | lia].
    apply nth_error_Some. congruence.
Qed.

(** ** Nodes are closed at their least cost *)

Section Optimality.

Variables (H : Heuristic) (start gl : Grid).

(** All paths from the start grid to a grid have the same parity. *)
Hypothesis Hparity :
  forall s n m, slides n start s -> slides m start s ->
                exists d, Z.of_nat n = Z.of_nat m + 2 * d.

(** Along [j] slides the heuristic falls by [j + 1] at most. *)
Hypothesis Hheur :
  forall k s j t, slides k start s -> slides j s t ->
                  heuristic H s gl <= heuristic H t gl + Z.of_nat j + 1.

Lemma frontier_cost (st : Globals) (k : nat) (s : Grid) :
  Inv H start gl st -> Opt start st -> slides k start s ->
  In s (map a (closed st)) \/
  exists m j, In m (fringe st) /\ slides j (a m) s /\
              g m + Z.of_nat j <= Z.of_nat k.
Proof.
  intros I O. revert s. induction k as [| k IH]; intros s Hs.
  - inversion Hs; subst.
    destruct (inv_start _ _ _ _ I) as [Hin | (m & Hm & E & Hg)];
      [now left | right].
    exists m, 0%nat. split; [assumption | ].
    split; [rewrite E; constructor | lia].
  - apply slides_last in Hs. destruct Hs as (t & Ht & Hts).
    destruct (IH t Ht) as [Hin | (m & j & Hm & Hj & Hg)].
    + apply in_map_iff in Hin. destruct Hin as (c & <- & Hc).
      pose proof (O c Hc k Ht) as Hgc.
      destruct (inv_succ _ _ _ _ I c s Hc Hts)
        as [Hin | (m & Hm & E & Hg)]; [now left | right].
      exists m, 0%nat. split; [assumption | ].
      split; [rewrite E; constructor | lia].
    + right. exists m, (S j). split; [assumption | ].
      split; [now apply slides_snoc with (t := t) | lia].
Qed.

(** The node that the loop selects has the least cost of its grid. *)
Lemma selected_cost (st : Globals) (cur : AStar) :
  Inv H start gl st -> Opt start st -> In cur (fringe st) ->
  (forall m, In m (fringe st) -> f cur <= f m) ->
  forall k, slides k start (a cur) -> g cur <= Z.of_nat k.
Proof.
  intros I O Hcur Hmin k Hk.
  destruct (frontier_cost st k (a cur) I O Hk)
    as [Hin | (m & j & Hm & Hj & Hg)].
  - now contradiction (inv_disj _ _ _ _ I cur Hcur).
  - pose proof (inv_fringe _ _ _ _ I cur Hcur) as Hwc.
    pose proof (inv_fringe _ _ _ _ I m Hm) as Hwm.
    pose proof (Hmin m Hm) as Hle.
    destruct (wf_node_slides _ _ _ _ _ _ Hwc) as [Hgc Hsc].
    destruct (wf_node_slides _ _ _ _ _ _ Hwm) as [Hgm Hsm].
    destruct Hwc as (_ & Hfc & _). destruct Hwm as (_ & Hfm & _).
    pose proof (Hheur _ _ _ _ Hsm Hj) as Hh.
    destruct (Hparity _ _ _ Hsc Hk) as (d & Hd).
    lia.
Qed.

Lemma Opt_expand (st : Globals) (cur : AStar) :
  Inv H start gl st -> Opt start st -> In cur (fringe st) ->
  (forall m, In m (fringe st) -> f cur <= f m) ->
  Opt start (expand H cur st).
Proof.
  intros I O Hcur Hmin c Hc. cbn [expand closed] in Hc.
  apply in_app_iff in Hc. destruct Hc as [Hc | [<- | []]].
  - now apply O.
  - now apply selected_cost with (st := st).
Qed.

Lemma Opt_reach (st : Globals) :
  reach H (seed H start gl) st -> Opt start st.
Proof.
  induction 1 as [| st st' Hr IH Hs]; [intros c [] | ].
  apply Inv_reach in Hr. apply step_inr in Hs.
  destruct Hs as (cur & Hin & Hmin & _ & ->). now apply Opt_expand.
Qed.

(** The path that a run prints is no longer than any path from the
    start grid to the goal grid. *)
Lemma printed_minimal (fuel : nat) (path : list Grid) (st : Globals) :
  main H fuel start gl = Printed path st ->
  forall k, slides k start gl -> (length path <= S k)%nat.
Proof.
  rewrite main_eq. intros El k Hk.
  destruct (loop_reach H _ _ _ _ (reach_here H _) El)
    as [(st' & _ & E & _) | (st' & Hr & Hs)]; [discriminate | ].
  pose proof (Opt_reach st' Hr) as O. apply Inv_reach in Hr.
  destruct (step_printed _ _ _ _ _ _ Hr Hs)
    as (cur & Hin & Hmin & Ea & Hc & Hw & _).
  rewrite <- Ea in Hk.
  pose proof (selected_cost st' cur Hr O Hin Hmin k Hk) as Hg.
  destruct Hw as (_ & _ & l & Hc' & _ & _ & Hlen & _).
  assert (El' : l = path).
  { assert (Hlp : (length path <= length path + length l)%nat) by lia.
    assert (Hll : (length l <= length path + length l)%nat) by lia.
    pose proof (chain_printPath _ _ _ Hc _ Hlp) as E2.
    pose proof (chain_printPath _ _ _ Hc' _ Hll) as E3.
    congruence. }
  subst l. lia.
Qed.

End Optimality.

(** ** Runs that print a path *)

Lemma chain_unique (cl : list AStar) (n : AStar) (l l' : list Grid) :
  chain cl n l -> chain cl n l' -> l = l'.
Proof.
  intros Hc Hc'.
  assert (Hl : (length l <= length l + length l')%nat) by lia.
  assert (Hl' : (length l' <= length l + length l')%nat) by lia.
  pose proof (chain_printPath _ _ _ Hc _ Hl) as E.
  pose proof (chain_printPath _ _ _ Hc' _ Hl') as E'.
  congruence.
Qed.

(** A run that prints a path does so at a loop head that it reaches, for
    a well-formed node of the fringe that is at the goal. *)
Lemma printed_run (H : Heuristic) (fuel : nat) (start gl : Grid)
                  (path : list Grid) (st : Globals) :
  main H fuel start gl = Printed path st ->
  exists st' cur,
    reach H (seed H start gl) st' /\ In cur (fringe st') /\
    (forall m, In m (fringe st') -> f cur <= f m) /\
    a cur = gl /\ chain (closed st') cur path /\
    wf_node H start gl (closed st') (length (closed st')) cur /\
    closed st = closed st'.
Proof.
  rewrite main_eq. intros Hl.
  destruct (loop_reach H _ fuel _ _ (reach_here H _) Hl)
    as [(st' & _ & E & _) | (st' & Hr & Hs)]; [discriminate | ].
  pose proof (Inv_reach _ _ _ _ Hr) as I.
  destruct (step_printed _ _ _ _ _ _ I Hs)
    as (cur & Hin & Hmin & Ea & Hc & Hw & ->).
  exists st', cur. cbn [closed]. tauto.
Qed.

Lemma printed_path_props (H : Heuristic) (fuel : nat) (start gl : Grid)
                         (path : list Grid) (st : Globals) :
  main H fuel start gl = Printed path st ->
  hd_error path = Some start /\ last path start = gl /\ contiguous path.
Proof.
  intros E.
  destruct (printed_run _ _ _ _ _ _ E)
    as (st' & cur & _ & _ & _ & Ea & Hc & Hw & _).
  destruct Hw as (_ & _ & l & Hc' & Hh & Hcont & _).
  rewrite (chain_unique _ _ _ _ Hc' Hc) in *.
  split; [assumption | ]. split; [ | assumption].
  destruct (chain_last _ _ _ Hc) as (p0 & ->).
  rewrite last_last. assumption.
Qed.

(** A checked list of grids is a path. *)
Lemma slides_of_path (s : Grid) (l : list Grid) :
  contiguous_b (s :: l) = true -> slides (length l) s (last (s :: l) s).
Proof.
  intros Hc. apply contiguous_slides; [ | reflexivity].
  now apply contiguous_b_true.
Qed.

Lemma front_of_empty_fringe (H : Heuristic) (fuel : nat) (start gl : Grid)
                            (st : Globals) :
  main H fuel start gl = FrontOfEmpty st -> fringe st = [].
Proof.
  rewrite main_eq. intros El.
  destruct (loop_reach H _ _ _ _ (reach_here H _) El)
    as [(st' & _ & E & _) | (st' & Hr & Hs)]; [discriminate | ].
  rewrite step_eq in Hs. destruct (fringe st') as [| front rest] eqn:Ef.
  - injection Hs as <-. assumption.
  - cbv zeta in Hs. destruct (isGoal _); [ | discriminate].
    now destruct (printPath _ _ _).
Qed.

(** The selection takes the last node of least [f]: no node has a smaller
    [f], and every node behind the selected one has a greater [f]. *)
Lemma select_last_min (front : AStar) (fr : list AStar) :
  (select front fr = front /\ forall m, In m fr -> f front < f m) \/
  (exists l1 l2, fr = l1 ++ select front fr :: l2 /\
                 forall m, In m l2 -> f (select front fr) < f m).
Proof.
  unfold select. revert front.
  induction fr as [| x fr IH]; intros front; cbn [fold_left].
  - left. split; [reflexivity | intros m []].
  - destruct (lt_op x front) eqn:E0; unfold lt_op in E0;
      [apply Z.leb_le in E0 | apply Z.leb_gt in E0].
    + destruct (IH x) as [[E Hall] | (l1 & l2 & E & Hall)].
      * right. exists [], fr. rewrite E. split; [reflexivity | assumption].
      * right. exists (x :: l1), l2. split; [ | assumption].
        cbn. f_equal. assumption.
    + destruct (IH front) as [[E Hall] | (l1 & l2 & E & Hall)].
      * left. split; [assumption | ].
        intros m [<- | Hm]; [lia | now apply Hall].
      * right. exists (x :: l1), l2. split; [ | assumption].
        cbn. f_equal. assumption.
Qed.

(** ** Slides keep the parity of the inversions *)

Lemma inv_pair_0_l (y : Z) : inv_pair 0 y = 0.
Proof. reflexivity. Qed.

Lemma inv_pair_0_r (x : Z) : inv_pair x 0 = 0.
Proof. unfold inv_pair. now rewrite Z.eqb_refl, orb_true_r. Qed.

Lemma inv_pair_anti (x y : Z) :
  x <> 0 -> y <> 0 -> x <> y -> inv_pair x y + inv_pair y x = 1.
Proof.
  intros Hx Hy Hn. unfold inv_pair.
  apply Z.eqb_neq in Hx, Hy. rewrite Hx, Hy. cbn.
  destruct (Z.ltb_spec y x), (Z.ltb_spec x y); lia.
Qed.

Lemma even_difference (x y : Z) :
  (y - x) mod 2 = 0 -> exists d, y = x + 2 * d.
Proof.
  intros E. exists ((y - x) / 2).
  pose proof (Z.div_mod (y - x) 2). lia.
Qed.

(** The two inversion counts are written out, the pairs they share
    cancel, and what is left are the pairs of the moved tile with the
    tiles it passes, each of which changes the count by one. *)
Ltac inversions_case :=
  cbn [inv_list inv_from]; rewrite ?inv_pair_0_l, ?inv_pair_0_r;
  match goal with |- ?d mod 2 = 0 => ring_simplify d end;
  repeat match goal with
  | |- context [inv_pair ?x ?y] =>
      lazymatch goal with
      | _ : inv_pair x y + inv_pair y x = 1 |- _ => fail
      | _ : inv_pair y x + inv_pair x y = 1 |- _ => fail
      | _ => assert (inv_pair x y + inv_pair y x = 1)
               by (apply inv_pair_anti; intros ->; tauto)
      end
  end;
  repeat match goal with H : ~ _ |- _ => clear H end;
  Z.div_mod_to_equations; lia.

Lemma inversions_slide (s s' : Grid) :
  is_valid s = true -> slide s s' ->
  exists d, inversions s' = inversions s + 2 * d.
Proof.
  intros Hv (i & j & k & l & Hb & Hb' & Ha & E0 & ->).
  apply is_valid_NoDup in Hv. apply even_difference.
  destruct s as [x00 x01 x02 x10 x11 x12 x20 x21 x22].
  unfold inversions.
  all_positions i j Hb; all_positions k l Hb';
    try (exfalso; unfold adjacent in Ha; lia); clear Ha;
    cbn in E0; subst; cbn in Hv |- *;
    repeat (apply NoDup_cons_inv in Hv; destruct Hv as [? Hv]);
    cbn [In] in *; inversions_case.
Qed.

Lemma inversions_slides (n : nat) (s t : Grid) :
  is_valid s = true -> slides n s t ->
  exists d, inversions t = inversions s + 2 * d.
Proof.
  intros Hv Hs. induction Hs as [s | n s s' t Hs Hss IH].
  - exists 0. lia.
  - assert (Hv' : is_valid s' = true) by (now rewrite (is_valid_slide s s')).
    destruct (IH Hv') as (d & ->).
    destruct (inversions_slide s s' Hv Hs) as (d' & ->).
    exists (d' + d). lia.
Qed.

(** Exchanging the tiles 7 and 8 of the goal gives a grid from which the
    goal cannot be reached. *)
Lemma swapped_tiles_unsolvable :
  forall k, ~ slides k (grid_of [1;2;3;4;5;6;8;7;0]) std_goal.
Proof.
  intros k Hk.
  destruct (inversions_slides k (grid_of [1;2;3;4;5;6;8;7;0]) std_goal
              eq_refl Hk) as (d & E).
  change (inversions std_goal) with 0 in E.
  change (inversions (grid_of [1;2;3;4;5;6;8;7;0])) with 1 in E. lia.
Qed.

(** ** The goal is found only at selection *)

(** C10: [setChildState] returns [false] on every call, hence so does
    [getSuccessors]; no run leaves the loop of [solve] by the break after
    [getSuccessors], and a turn of the loop that prints a path is one in
    which the node selected from the fringe passed the [isGoal] test. *)
Theorem goal_detected_only_at_selection :
  (forall H childNode st, fst (setChildState H childNode st) = false) /\
  (forall H currentNode st, fst (getSuccessors H currentNode st) = false) /\
  (forall H fuel startNode st st', solve H fuel startNode st <> Broke st') /\
  (forall H st path st',
      step H st = inl (Printed path st') ->
      exists front rest,
        fringe st = front :: rest /\
        isGoal (select front (fringe st)) = true).
Proof.
  split; [apply setChildState_false | ].
  split; [intros; now rewrite getSuccessors_eq | ].
  split; [intros; apply loop_not_broke | ].
  intros H st path st'. unfold step.
  destruct (fringe st) as [| front rest]; [discriminate | ].
  cbv zeta. destruct (isGoal _) eqn:Eg.
  - intros _. now exists front, rest.
  - destruct (getSuccessors _ _ _) as [[] ?]; discriminate.
Qed.

Lemma goal_detected_only_at_selection_witness :
  let st := seed MISPLACED_TILES std_goal std_goal in
  exists front rest,
    fringe st = front :: rest /\ isGoal (select front (fringe st)) = true.
Proof.
  intros st.
  destruct goal_detected_only_at_selection as (_ & _ & _ & Hsel).
  apply (Hsel MISPLACED_TILES st [std_goal]
              (mkGlobals (fringe st) [] 0 0)).
  vm_compute. reflexivity.
Defined.

(** ** Start equal to goal *)

(** C8: when the start grid is the goal grid (for every grid, valid or
    not), the first turn of the loop ends the run: the printed path is the
    one grid, nothing was expanded and nothing generated. *)
Theorem start_equals_goal (H : Heuristic) (fuel : nat) (G : Grid) :
  exists st,
    main H (S fuel) G G = Printed [G] st /\
    nodesExpanded st = 0 /\ nodesGenerated st = 0 /\ closed st = [].
Proof.
  eexists. rewrite main_eq. cbn [loop]. rewrite step_eq.
  cbn [seed fringe closed select fold_left length nodesGenerated].
  assert (E : (if lt_op (start_node H G G) (start_node H G G)
               then start_node H G G else start_node H G G)
              = start_node H G G) by now destruct (lt_op _ _).
  rewrite E.
  assert (Eg : isGoal (start_node H G G) = true)
    by (apply isGoal_true; reflexivity).
  cbv zeta. rewrite Eg. cbn. repeat split; reflexivity.
Qed.

(** ** The fringe and the closed list stay apart *)

(** C6, as stated, fails inside [getSuccessors]: from
    [closed.push_back(currentNode)] (line 110) until
    [fringe.remove(currentNode)] (line 168) the node that is being
    expanded is in the fringe and in the closed list.  Below, [st0] are
    the globals of the first turn after the [push_back], and [mid] those
    with which the two loops are left, one statement before the [remove];
    the four children are behind the node in the fringe by then. *)
Lemma expanded_node_is_in_both_lists :
  let start := grid_of [1;2;3;4;0;6;7;5;8] in
  let cur := start_node MISPLACED_TILES start std_goal in
  let st := seed MISPLACED_TILES start std_goal in
  let st0 := mkGlobals (fringe st) (closed st ++ [cur]) (nodesGenerated st)
                       (nodesExpanded st) in
  let mid := snd (loop_i MISPLACED_TILES cur rows st0) in
  select cur (fringe st) = cur /\ isGoal cur = false /\
  getSuccessors MISPLACED_TILES cur st
  = (false, mkGlobals (remove cur (fringe mid)) (closed mid)
                      (nodesGenerated mid) (nodesExpanded mid)) /\
  (In cur (fringe st0) /\ In (a cur) (map a (closed st0))) /\
  (In cur (fringe mid) /\ In (a cur) (map a (closed mid))) /\
  length (fringe mid) = 5%nat.
Proof.
  intros start cur st st0 mid.
  split; [reflexivity | ]. split; [reflexivity | ].
  split; [reflexivity | ].
  split; [split; left; reflexivity | ].
  split; [ | reflexivity].
  split; vm_compute; left; reflexivity.
Qed.

(** C6, amended: at every head of the loop that a run reaches, no grid of
    a fringe node is the grid of a closed node.  When the node [cur]
    selected there is expanded, then after the call of [getSuccessors]
    every node that entered the fringe has a grid that is not closed, no
    node with the grid of [cur] is left in the fringe, and that grid is
    closed. *)
Theorem fringe_disjoint_from_closed (H : Heuristic) (start gl : Grid)
                                    (st : Globals) :
  reach H (seed H start gl) st ->
  (forall n, In n (fringe st) -> ~ In (a n) (map a (closed st))) /\
  (forall cur, In cur (fringe st) -> isGoal cur = false ->
     let st' := snd (getSuccessors H cur st) in
     (forall n, In n (fringe st') -> ~ In (a n) (map a (closed st'))) /\
     (forall n, In n (fringe st') -> a n <> a cur) /\
     In (a cur) (map a (closed st'))).
Proof.
  intros Hr. apply Inv_reach in Hr.
  split; [apply (inv_disj _ _ _ _ Hr) | ].
  intros cur Hin Hg. rewrite getSuccessors_eq. cbn [snd].
  pose proof (Inv_expand _ _ _ _ _ Hr Hin Hg) as I'.
  split; [apply (inv_disj _ _ _ _ I') | ].
  split.
  - intros n Hn. apply in_expand_fringe in Hn. tauto.
  - cbn [expand closed]. rewrite map_app, in_app_iff. right. now left.
Qed.

Lemma fringe_disjoint_from_closed_witness :
  let start := grid_of [1;2;3;4;0;6;7;5;8] in
  exists st,
    reach MISPLACED_TILES (seed MISPLACED_TILES start std_goal) st /\
    length (closed st) = 1%nat /\ length (fringe st) = 4%nat /\
    forall n, In n (fringe st) -> ~ In (a n) (map a (closed st)).
Proof.
  intros start.
  exists (expand MISPLACED_TILES (start_node MISPLACED_TILES start std_goal)
                 (seed MISPLACED_TILES start std_goal)).
  assert (Hr : reach MISPLACED_TILES (seed MISPLACED_TILES start std_goal)
                 (expand MISPLACED_TILES
                         (start_node MISPLACED_TILES start std_goal)
                         (seed MISPLACED_TILES start std_goal))).
  { eapply reach_next; [apply reach_here | ]. vm_compute. reflexivity. }
  split; [exact Hr | ]. split; [reflexivity | ]. split; [reflexivity | ].
  apply (fringe_disjoint_from_closed MISPLACED_TILES start std_goal _ Hr).
Defined.

(** ** The printed path *)

(** C9: whenever the goal test of a run succeeds, [printPath] comes to an
    end, and the path printed by a successful run is the parent chain of
    the selected goal node, followed from that node to a node without
    parent and printed backwards: it begins with the start grid, ends with
    the goal grid, and each of its grids differs by one slide from the one
    before. *)
Theorem printed_path_is_contiguous (H : Heuristic) (start gl : Grid) :
  (forall fuel st, main H fuel start gl <> BrokenChain st) /\
  (forall fuel path st,
      main H fuel start gl = Printed path st ->
      hd_error path = Some start /\ last path start = gl /\
      contiguous path /\
      exists cur, a cur = gl /\ chain (closed st) cur path /\
                  Z.of_nat (length path) = g cur + 1).
Proof.
  split.
  - intros fuel st E. rewrite main_eq in E.
    destruct (loop_reach H _ _ _ _ (reach_here H _) E)
      as [(st' & _ & E' & _) | (st' & Hr & Hs)]; [discriminate | ].
    apply Inv_reach in Hr.
    now apply (step_not_broken_chain H start gl st' st Hr).
  - intros fuel path st E.
    destruct (printed_run _ _ _ _ _ _ E)
      as (st' & cur & _ & _ & _ & Ea & Hc & Hw & Ecl).
    destruct Hw as (_ & _ & l & Hc' & Hh & Hcont & Hlen & _).
    assert (El : l = path) by exact (chain_unique _ _ _ _ Hc' Hc).
    subst l. split; [exact Hh | ]. split.
    + destruct (chain_last _ _ _ Hc) as (p0 & Ep). rewrite Ep, last_last.
      exact Ea.
    + split; [exact Hcont | ]. exists cur. rewrite Ecl. tauto.
Qed.

Lemma printed_path_is_contiguous_witness :
  let start := grid_of [1;2;3;4;0;6;7;5;8] in
  exists path st,
    main MISPLACED_TILES 5 start std_goal = Printed path st /\
    hd_error path = Some start /\ last path start = std_goal /\
    contiguous path.
Proof.
  intros start.
  destruct (main MISPLACED_TILES 5 start std_goal) as [path st | | | | ] eqn:E;
    try (vm_compute in E; discriminate E).
  exists path, st. split; [reflexivity | ].
  destruct (printed_path_is_contiguous MISPLACED_TILES start std_goal)
    as [_ P].
  specialize (P 5%nat path st E). tauto.
Defined.

(** ** Determinism *)






(** ** The heuristics overestimate *)




(** ** Minimal paths *)

(** C1: with the macro [MANHATTAN] selected, the run on the valid grids
    below prints a path of 15 grids, that is 14 slides, although 12
    slides lead from the start to the goal; with [MISPLACED_TILES]
    selected the run on the same grids prints 13 grids. *)
Lemma manhattan_path_not_minimal :
  let start := grid_of [7;1;3;2;4;6;5;8;0] in
  is_valid start = true /\ is_valid std_goal = true /\
  (exists path st,
      main MANHATTAN 66 start std_goal = Printed path st /\
      length path = 15%nat) /\
  (exists path st,
      main MISPLACED_TILES 77 start std_goal = Printed path st /\
      length path = 13%nat) /\
  slides 12 start std_goal.
Proof.
  intros start. split; [reflexivity | ]. split; [reflexivity | ].
  split; [ | split].
  - destruct (main MANHATTAN 66 start std_goal) as [path st | | | | ] eqn:E;
      try (vm_compute in E; discriminate E).
    exists path, st. split; [reflexivity | ].
    vm_compute in E. injection E as <- _. reflexivity.
  - destruct (main MISPLACED_TILES 77 start std_goal)
      as [path st | | | | ] eqn:E;
      try (vm_compute in E; discriminate E).
    exists path, st. split; [reflexivity | ].
    vm_compute in E. injection E as <- _. reflexivity.
  - apply (slides_of_path start
             [grid_of [7;1;3;2;4;6;5;0;8]; grid_of [7;1;3;2;0;6;5;4;8];
              grid_of [7;1;3;0;2;6;5;4;8]; grid_of [0;1;3;7;2;6;5;4;8];
              grid_of [1;0;3;7;2;6;5;4;8]; grid_of [1;2;3;7;0;6;5;4;8];
              grid_of [1;2;3;7;4;6;5;0;8]; grid_of [1;2;3;7;4;6;0;5;8];
              grid_of [1;2;3;0;4;6;7;5;8]; grid_of [1;2;3;4;0;6;7;5;8];
              grid_of [1;2;3;4;5;6;7;0;8]; std_goal]).
    vm_compute. reflexivity.
Qed.

(** X21: with the misplaced-tiles heuristic, for every valid start and
    goal grid such that the goal can be reached, the run succeeds, and
    the path that a successful run prints leads from the start to the
    goal by slides and is no longer than any sequence of slides from the
    start to the goal. *)
Theorem misplaced_search_is_minimal (start gl : Grid) :
  is_valid start = true -> is_valid gl = true ->
  (exists k, slides k start gl) ->
  (exists fuel path st,
      main MISPLACED_TILES fuel start gl = Printed path st) /\
  (forall fuel path st,
      main MISPLACED_TILES fuel start gl = Printed path st ->
      hd_error path = Some start /\ last path start = gl /\
      contiguous path /\
      forall k, slides k start gl -> (length path <= S k)%nat).
Proof.
  intros Hv _ (k0 & Hk0). split.
  - destruct (run_ends MISPLACED_TILES start gl)
      as (fuel & st & [(path & E) | E]).
    + now exists fuel, path, st.
    + now contradiction (front_of_empty_unsolvable _ _ _ _ _ E k0).
  - intros fuel path st E.
    destruct (printed_path_props _ _ _ _ _ _ E) as (Hh & Hl & Hc).
    split; [assumption | ]. split; [assumption | ]. split; [assumption | ].
    apply (printed_minimal MISPLACED_TILES start gl) with (fuel := fuel)
                                                          (st := st).
    + intros s n m Hn Hm. now apply slides_parity with (s := start) (t := s).
    + intros k s j t Hk Hj. cbn [heuristic].
      apply misplaced_slides; [ | assumption].
      now rewrite (is_valid_slides k start s).
    + assumption.
Qed.

Lemma misplaced_search_is_minimal_witness :
  let start := grid_of [1;2;3;4;0;6;7;5;8] in
  (exists fuel path st,
      main MISPLACED_TILES fuel start std_goal = Printed path st) /\
  (forall fuel path st,
      main MISPLACED_TILES fuel start std_goal = Printed path st ->
      hd_error path = Some start /\ last path start = std_goal /\
      contiguous path /\
      forall k, slides k start std_goal -> (length path <= S k)%nat).
Proof.
  intros start.
  apply (misplaced_search_is_minimal start std_goal);
    [reflexivity | reflexivity | ].
  exists 2%nat.
  apply (slides_of_path start [grid_of [1;2;3;4;5;6;7;0;8]; std_goal]).
  vm_compute. reflexivity.
Defined.

(** ** Inputs that are not valid *)

(** C5, as stated, fails: the grids below hold the value 1 eight times,
    and yet the search runs, expands the start node and prints a path. *)
Lemma invalid_input_is_searched :
  let start := grid_of [1;1;1;1;1;1;1;0;1] in
  let gl := grid_of [1;1;1;1;1;1;1;1;0] in
  is_valid start = false /\ is_valid gl = false /\
  forall H, exists st,
    main H 2 start gl = Printed [start; gl] st /\
    nodesExpanded st = 1 /\ nodesGenerated st = 3.
Proof.
  intros start gl. split; [reflexivity | ]. split; [reflexivity | ].
  intros []; eexists; (split; [vm_compute; reflexivity | ]);
    split; reflexivity.
Qed.

(** C5, amended: the program does not validate its input.  Also when the
    start or the goal grid does not hold each of 0..8 exactly once, the
    search is run: it prints a path from the start grid to the goal grid
    when slides lead from the one to the other, and otherwise comes to
    [fringe.front()] on the empty fringe. *)
Theorem invalid_input_is_not_rejected (H : Heuristic) (start gl : Grid) :
  is_valid start = false \/ is_valid gl = false ->
  exists fuel st,
    ((exists k, slides k start gl) /\
     exists path, main H fuel start gl = Printed path st /\
                  hd_error path = Some start /\ last path start = gl /\
                  contiguous path) \/
    ((forall k, ~ slides k start gl) /\
     main H fuel start gl = FrontOfEmpty st /\ fringe st = []).
Proof.
  intros _.
  destruct (run_ends H start gl) as (fuel & st & [(path & E) | E]);
    exists fuel, st; [left | right].
  - split; [now apply (printed_solvable H fuel start gl path st) | ].
    exists path. split; [assumption | ].
    destruct (printed_path_props _ _ _ _ _ _ E) as (Hh & Hl & Hc). tauto.
  - split; [now apply (front_of_empty_unsolvable H fuel start gl st) | ].
    split; [assumption | ]. now apply (front_of_empty_fringe H fuel start gl).
Qed.

Lemma invalid_input_is_not_rejected_witness :
  let start := grid_of [1;1;1;1;1;1;1;0;1] in
  let gl := grid_of [1;1;1;1;1;1;1;1;0] in
  exists fuel st,
    ((exists k, slides k start gl) /\
     exists path, main MISPLACED_TILES fuel start gl = Printed path st /\
                  hd_error path = Some start /\ last path start = gl /\
                  contiguous path) \/
    ((forall k, ~ slides k start gl) /\
     main MISPLACED_TILES fuel start gl = FrontOfEmpty st /\ fringe st = []).
Proof.
  intros start gl.
  apply (invalid_input_is_not_rejected MISPLACED_TILES start gl).
  left. reflexivity.
Defined.

(** ** Selection among equal costs *)

(** C3: the selection does not keep the first node of least [f].  After
    the start grid below has been expanded the fringe holds three nodes;
    the second and the third have the same least [f], and the loop
    selects the third, the one inserted last. *)
Theorem selection_takes_last_of_equal_f :
  let start := grid_of [1;2;3;4;6;0;7;5;8] in
  exists st up down left,
    step MISPLACED_TILES (seed MISPLACED_TILES start std_goal) = inr st /\
    fringe st = [up; down; left] /\
    a up = grid_of [1;2;0;4;6;3;7;5;8] /\ f up = 6 /\
    a down = grid_of [1;2;3;4;6;8;7;5;0] /\ f down = 4 /\
    a left = grid_of [1;2;3;4;0;6;7;5;8] /\ f left = 4 /\
    select up (fringe st) = left.
Proof.
  intros start. eexists. eexists. eexists. eexists.
  split; [vm_compute; reflexivity | ].
  split; [reflexivity | ]. repeat (split; [reflexivity | ]). reflexivity.
Qed.

(** ** Instances without solution *)

(** C2: [solve] has no test for the empty fringe.  When the goal cannot
    be reached, the run closes every grid it can reach and then comes to a
    turn of the loop in which [fringe.front()] is called on the empty
    list; it never prints a path, and no failure is reported. *)
Theorem unsolvable_run_reaches_empty_front (H : Heuristic)
                                           (start gl : Grid) :
  (forall k, ~ slides k start gl) ->
  (exists fuel st, main H fuel start gl = FrontOfEmpty st /\ fringe st = [])
  /\ (forall fuel path st, main H fuel start gl <> Printed path st).
Proof.
  intros Hn.
  assert (Hp : forall fuel path st, main H fuel start gl <> Printed path st).
  { intros fuel path st E.
    destruct (printed_solvable H fuel start gl path st E) as (k & Hk).
    now apply (Hn k). }
  split; [ | exact Hp].
  destruct (run_ends H start gl) as (fuel & st & [(path & E) | E]).
  - now contradiction (Hp fuel path st).
  - exists fuel, st. split; [assumption | ].
    now apply (front_of_empty_fringe H fuel start gl).
Qed.

Lemma unsolvable_run_reaches_empty_front_witness :
  let start := grid_of [1;2;3;4;5;6;8;7;0] in
  (exists fuel st,
      main MISPLACED_TILES fuel start std_goal = FrontOfEmpty st /\
      fringe st = [])
  /\ (forall fuel path st,
         main MISPLACED_TILES fuel start std_goal <> Printed path st).
Proof.
  intros start.
  apply (unsolvable_run_reaches_empty_front MISPLACED_TILES start std_goal).
  exact swapped_tiles_unsolvable.
Defined.
(** * Further properties of the search code *)

(** ** Cells that change places *)

Lemma get_swap_fst (s : Grid) (i j k l : nat) :
  in_bounds i j -> in_bounds k l -> get (swap s i j k l) i j = get s k l.
Proof.
  intros Hb Hb'. destruct s.
  all_positions i j Hb; all_positions k l Hb'; reflexivity.
Qed.

Lemma get_swap_snd (s : Grid) (i j k l : nat) :
  in_bounds i j -> in_bounds k l -> get (swap s i j k l) k l = get s i j.
Proof.
  intros Hb Hb'. destruct s.
  all_positions i j Hb; all_positions k l Hb'; reflexivity.
Qed.

Lemma swap_swap (s : Grid) (i j k l : nat) :
  in_bounds i j -> in_bounds k l -> swap (swap s i j k l) k l i j = s.
Proof.
  intros Hb Hb'. destruct s.
  all_positions i j Hb; all_positions k l Hb'; reflexivity.
Qed.

Lemma slide_sym (s s' : Grid) : slide s s' -> slide s' s.
Proof.
  intros (i & j & k & l & Hb & Hb' & Ha & E0 & ->).
  exists k, l, i, j. split; [assumption | ]. split; [assumption | ].
  split; [now apply adjacent_sym | ].
  split; [now rewrite get_swap_snd | now rewrite swap_swap].
Qed.

Lemma slides_sym (n : nat) (s t : Grid) : slides n s t -> slides n t s.
Proof.
  induction 1 as [s | n s s' t Hs _ IH]; [constructor | ].
  apply slides_snoc with (t := s'); [assumption | now apply slide_sym].
Qed.

(** X1: the successor relation is symmetric.  If [getSuccessors] makes the
    grid [s'] from [s], it makes [s] from [s'] (the swap of the same two
    cells undoes itself), and a sequence of slides read backwards is a
    sequence of slides. *)
Theorem moves_are_reversible (s s' : Grid) :
  In s' (moves s) ->
  In s (moves s') /\
  forall n t, slides n s t -> slides n t s.
Proof.
  intros Hm. split.
  - apply in_moves. apply slide_sym. now apply in_moves.
  - intros n t. apply slides_sym.
Qed.

Lemma moves_are_reversible_witness :
  In (grid_of [1;2;3;4;0;6;7;5;8]) (moves (grid_of [1;2;3;4;5;6;7;0;8])) /\
  forall n t, slides n (grid_of [1;2;3;4;0;6;7;5;8]) t ->
              slides n t (grid_of [1;2;3;4;0;6;7;5;8]).
Proof.
  apply (moves_are_reversible (grid_of [1;2;3;4;0;6;7;5;8])
                              (grid_of [1;2;3;4;5;6;7;0;8])).
  vm_compute. tauto.
Defined.

(** ** Equality of nodes *)

(** X2: [operator==] holds of two nodes exactly when their grids agree in
    all nine cells, whatever their costs, goals and parents; and
    [isExplored] answers [true] exactly when some node of the closed list
    has the grid of the node asked for. *)
Theorem equality_looks_at_the_grid_only :
  (forall x y, eq_op x y = true <-> a x = a y) /\
  (forall s gl1 g1 h1 f1 p1 gl2 g2 h2 f2 p2,
      eq_op (mkAStar s gl1 g1 h1 f1 p1) (mkAStar s gl2 g2 h2 f2 p2) = true) /\
  (forall cl cur,
      isExplored cl cur = true <-> exists it, In it cl /\ a it = a cur).
Proof.
  split; [intros x y; apply grid_eqb_eq | ].
  split; [intros; apply grid_eqb_refl | ].
  intros cl cur. rewrite isExplored_true, in_map_iff.
  split; intros (it & Hit); exists it; tauto.
Qed.

(** ** The values of the heuristics *)

Lemma misplaced_zero (s gl : Grid) : misplaced s gl = 0 -> s = gl.
Proof.
  rewrite misplaced_gsum, gsum_unfold. unfold misplaced_term.
  destruct s, gl; cbn [a00 a01 a02 a10 a11 a12 a20 a21 a22 get].
  intros E.
  repeat match goal with
  | _ : context [?x =? ?y] |- _ =>
      destruct (Z.eqb_spec x y); cbn [negb] in E; [subst | ]
  end; first [reflexivity | exfalso; lia].
Qed.

Lemma misplaced_range (s gl : Grid) : 0 <= misplaced s gl <= 9.
Proof.
  rewrite misplaced_gsum, gsum_unfold.
  pose proof (misplaced_term_range gl) as R.
  pose proof (R 0%nat 0%nat (a00 s)). pose proof (R 0%nat 1%nat (a01 s)).
  pose proof (R 0%nat 2%nat (a02 s)). pose proof (R 1%nat 0%nat (a10 s)).
  pose proof (R 1%nat 1%nat (a11 s)). pose proof (R 1%nat 2%nat (a12 s)).
  pose proof (R 2%nat 0%nat (a20 s)). pose proof (R 2%nat 1%nat (a21 s)).
  pose proof (R 2%nat 2%nat (a22 s)). lia.
Qed.

(** X3: the misplaced-tiles value lies between 0 and 9 for all grids, and
    it is 0 exactly when the grid is the goal grid. *)
Theorem misplaced_is_zero_at_the_goal_only (s gl : Grid) :
  0 <= misplaced s gl <= 9 /\ (misplaced s gl = 0 <-> s = gl).
Proof.
  split; [apply misplaced_range | ].
  split; [apply misplaced_zero | intros ->; apply misplaced_goal].
Qed.

(** The values of a valid grid are the numbers 0..8. *)
Lemma valid_values (s : Grid) (x : Z) :
  is_valid s = true -> (In x (to_list s) <-> 0 <= x <= 8).
Proof.
  intros Hv. split.
  - intros Hin.
    assert (Hi : incl (to_list s) (map Z.of_nat (seq 0 9))).
    { apply NoDup_length_incl.
      - cbn. repeat (constructor; [cbn; intuition lia | ]). constructor.
      - reflexivity.
      - intros v Hv'. apply in_map_iff in Hv'.
        destruct Hv' as (n & <- & Hn). apply in_seq in Hn.
        apply (count_occ_In Z.eq_dec).
        assert (E : count (Z.of_nat n) s = 1)
          by (apply is_valid_count; [assumption | lia]).
        rewrite count_spec in E. lia. }
    apply Hi in Hin. apply in_map_iff in Hin.
    destruct Hin as (n & <- & Hn). apply in_seq in Hn. lia.
  - intros Hr. apply (count_occ_In Z.eq_dec).
    pose proof (is_valid_count s x Hv Hr) as E.
    rewrite count_spec in E. lia.
Qed.

(** The Manhattan term of a value that the goal holds is its distance to
    a cell of the goal with that value. *)
Lemma manhattan_term_found (gl : Grid) (v : Z) :
  In v (to_list gl) ->
  exists k l, in_bounds k l /\ get gl k l = v /\
    forall i j,
      manhattan_term gl i j v
      = Z.abs (Z.of_nat i - Z.of_nat k) + Z.abs (Z.of_nat j - Z.of_nat l).
Proof.
  intros Hin.
  unfold manhattan_term, rows, MAX_ROWS. cbn [seq scan_k].
  unfold columns, MAX_COLUMNS. cbn [seq scan_l].
  repeat match goal with
  | |- context [v =? get gl ?k ?l] =>
      destruct (Z.eqb_spec v (get gl k l)) as [E | ?];
      [exists k, l; split; [unfold in_bounds, MAX_ROWS, MAX_COLUMNS; lia | ];
       split; [now symmetry | intros i j; cbn; lia] | ]
  end.
  exfalso. destruct gl. cbn in *. intuition congruence.
Qed.

Lemma term_dominates (gl : Grid) (v : Z) (i j : nat) :
  In v (to_list gl) ->
  misplaced_term gl i j v <= manhattan_term gl i j v.
Proof.
  intros Hin. destruct (manhattan_term_found gl v Hin) as (k & l & _ & E & ->).
  unfold misplaced_term. destruct (Z.eqb_spec v (get gl i j)) as [E' | E'];
    cbn [negb]; [lia | ].
  assert (Hne : (i, j) <> (k, l)) by (intros [= -> ->]; congruence).
  assert (i <> k \/ j <> l) by (destruct (Nat.eq_dec i k); [right | left];
                                 congruence).
  lia.
Qed.

(** X4: on valid grids the Manhattan value is never below the
    misplaced-tiles value, and it is 0 exactly when the grid is the goal
    grid. *)
Theorem manhattan_dominates_misplaced (s gl : Grid) :
  is_valid s = true -> is_valid gl = true ->
  misplaced s gl <= manhattan s gl /\ (manhattan s gl = 0 <-> s = gl).
Proof.
  intros Hs Hg.
  assert (Hin : forall x, In x (to_list s) -> In x (to_list gl)).
  { intros x Hx. apply (valid_values gl x Hg).
    now apply (valid_values s x Hs). }
  assert (Hle : misplaced s gl <= manhattan s gl).
  { rewrite misplaced_gsum, manhattan_gsum, !gsum_unfold.
    assert (T : forall i j, in_bounds i j ->
                  misplaced_term gl i j (get s i j)
                  <= manhattan_term gl i j (get s i j)).
    { intros i j Hb. apply term_dominates. apply Hin.
      unfold to_list. apply in_map_iff. exists (i, j).
      split; [reflexivity | now apply in_cells]. }
    assert (B : forall i j, (i < 3)%nat -> (j < 3)%nat -> in_bounds i j)
      by (intros; split; assumption).
    pose proof (T 0%nat 0%nat). pose proof (T 0%nat 1%nat).
    pose proof (T 0%nat 2%nat). pose proof (T 1%nat 0%nat).
    pose proof (T 1%nat 1%nat). pose proof (T 1%nat 2%nat).
    pose proof (T 2%nat 0%nat). pose proof (T 2%nat 1%nat).
    pose proof (T 2%nat 2%nat). cbn [get] in *.
    repeat match goal with
    | Hx : in_bounds _ _ -> _ |- _ =>
        specialize (Hx ltac:(apply B; lia))
    end. lia. }
  split; [exact Hle | ]. split.
  - intros E. apply misplaced_zero. pose proof (misplaced_range s gl). lia.
  - intros ->. now apply manhattan_goal.
Qed.

Lemma manhattan_dominates_misplaced_witness :
  misplaced (grid_of [7;1;3;2;4;6;5;8;0]) std_goal
  <= manhattan (grid_of [7;1;3;2;4;6;5;8;0]) std_goal /\
  (manhattan (grid_of [7;1;3;2;4;6;5;8;0]) std_goal = 0 <->
   grid_of [7;1;3;2;4;6;5;8;0] = std_goal).
Proof.
  apply (manhattan_dominates_misplaced (grid_of [7;1;3;2;4;6;5;8;0])
                                       std_goal); reflexivity.
Defined.

(** X5: against any goal grid the misplaced-tiles value of a valid grid
    exceeds the number of slides that lead to the goal by one at most. *)
Theorem misplaced_overestimates_by_one (s gl : Grid) (n : nat) :
  is_valid s = true -> slides n s gl -> misplaced s gl <= Z.of_nat n + 1.
Proof.
  intros Hv Hs. pose proof (misplaced_slides gl n s gl Hv Hs) as Hle.
  rewrite misplaced_goal in Hle. lia.
Qed.

Lemma misplaced_overestimates_by_one_witness :
  misplaced (grid_of [1;2;3;4;5;6;7;0;8]) std_goal <= Z.of_nat 1 + 1.
Proof.
  apply (misplaced_overestimates_by_one (grid_of [1;2;3;4;5;6;7;0;8])
                                        std_goal 1); [reflexivity | ].
  apply (slides_of_path (grid_of [1;2;3;4;5;6;7;0;8]) [std_goal]).
  vm_compute. reflexivity.
Defined.

(** ** What holds of the nodes at every head of the loop *)

(** A loop head of a run, used to instantiate the statements below. *)
Lemma reach_sample :
  reach MISPLACED_TILES
        (seed MISPLACED_TILES (grid_of [1;2;3;4;0;6;7;5;8]) std_goal)
        (expand MISPLACED_TILES
           (start_node MISPLACED_TILES (grid_of [1;2;3;4;0;6;7;5;8]) std_goal)
           (seed MISPLACED_TILES (grid_of [1;2;3;4;0;6;7;5;8]) std_goal)).
Proof.
  eapply reach_next; [apply reach_here | ]. vm_compute. reflexivity.
Qed.

Lemma node_wf (H : Heuristic) (start gl : Grid) (st : Globals) (n : AStar) :
  Inv H start gl st -> In n (fringe st) \/ In n (closed st) ->
  wf_node H start gl (closed st) (length (closed st)) n.
Proof.
  intros I [Hin | Hin]; [now apply (inv_fringe _ _ _ _ I) | ].
  apply In_nth_error in Hin. destruct Hin as (k & Hk).
  pose proof (inv_closed _ _ _ _ I k n Hk) as (Hg & Hf & l & Hc & Hh & Hco
                                                & Hlen & Hbd).
  assert (k < length (closed st))%nat by (apply nth_error_Some; congruence).
  repeat split; try assumption. exists l. repeat split; try assumption. lia.
Qed.

(** X6: the search only rearranges the cells of the start grid: every
    node of the fringe and of the closed list holds each value as often
    as the start grid does, so it is valid exactly when the start grid
    is. *)
Theorem nodes_rearrange_the_start (H : Heuristic) (start gl : Grid)
                                  (st : Globals) :
  reach H (seed H start gl) st ->
  forall n, In n (fringe st) \/ In n (closed st) ->
    (forall v, count_occ Z.eq_dec (to_list (a n)) v
               = count_occ Z.eq_dec (to_list start) v) /\
    is_valid (a n) = is_valid start.
Proof.
  intros Hr n Hn. apply Inv_reach in Hr.
  pose proof (node_wf _ _ _ _ _ Hr Hn) as Hw.
  apply wf_node_slides in Hw. destruct Hw as [_ Hs]. split.
  - intros v. pose proof (slides_same_counts _ _ _ v Hs) as E.
    rewrite !count_spec in E. lia.
  - now apply is_valid_slides with (n := Z.to_nat (g n)).
Qed.

Lemma nodes_rearrange_the_start_witness :
  exists st,
    reach MISPLACED_TILES
          (seed MISPLACED_TILES (grid_of [1;2;3;4;0;6;7;5;8]) std_goal) st /\
    length (fringe st) = 4%nat /\
    forall n, In n (fringe st) \/ In n (closed st) ->
      (forall v, count_occ Z.eq_dec (to_list (a n)) v
                 = count_occ Z.eq_dec
                     (to_list (grid_of [1;2;3;4;0;6;7;5;8])) v) /\
      is_valid (a n) = is_valid (grid_of [1;2;3;4;0;6;7;5;8]).
Proof.
  eexists. split; [exact reach_sample | ]. split; [reflexivity | ].
  exact (nodes_rearrange_the_start _ _ _ _ reach_sample).
Defined.

Lemma even_same (x y d : Z) : y = x + 2 * d -> Z.even y = Z.even x.
Proof.
  intros ->. rewrite Z.even_add, Z.even_mul. cbn.
  now destruct (Z.even x).
Qed.

(** X7: slides keep the parity of the number of inversions.  On a valid
    start grid every node of the search has the inversion parity of the
    start grid, and when the goal grid has the other parity no run prints
    a path. *)
Theorem inversion_parity_is_kept (H : Heuristic) (start gl : Grid) :
  is_valid start = true ->
  (forall st n, reach H (seed H start gl) st ->
                In n (fringe st) \/ In n (closed st) ->
                Z.even (inversions (a n)) = Z.even (inversions start)) /\
  (Z.even (inversions gl) <> Z.even (inversions start) ->
   forall fuel path st, main H fuel start gl <> Printed path st).
Proof.
  intros Hv. split.
  - intros st n Hr Hn. apply Inv_reach in Hr.
    pose proof (node_wf _ _ _ _ _ Hr Hn) as Hw.
    apply wf_node_slides in Hw. destruct Hw as [_ Hs].
    destruct (inversions_slides _ _ _ Hv Hs) as (d & E).
    now apply even_same with (d := d).
  - intros Hne fuel path st E.
    destruct (printed_solvable H fuel start gl path st E) as (k & Hk).
    destruct (inversions_slides _ _ _ Hv Hk) as (d & E').
    apply Hne. now apply even_same with (d := d).
Qed.

Lemma inversion_parity_is_kept_witness :
  is_valid (grid_of [1;2;3;4;5;6;8;7;0]) = true /\
  forall fuel path st,
    main MANHATTAN fuel (grid_of [1;2;3;4;5;6;8;7;0]) std_goal
    <> Printed path st.
Proof.
  split; [reflexivity | ].
  destruct (inversion_parity_is_kept MANHATTAN (grid_of [1;2;3;4;5;6;8;7;0])
              std_goal eq_refl) as [_ P].
  apply P. vm_compute. discriminate.
Defined.

(** X8: no grid is expanded twice and nothing is lost.  At every head of
    the loop the grids of the closed list are pairwise different, none of
    them is the goal grid, and every grid one slide from a closed grid is
    itself closed or is the grid of a node of the fringe. *)
Theorem closed_grids_are_distinct (H : Heuristic) (start gl : Grid)
                                  (st : Globals) :
  reach H (seed H start gl) st ->
  NoDup (map a (closed st)) /\
  (forall c, In c (closed st) -> a c <> gl) /\
  (forall c s', In c (closed st) -> slide (a c) s' ->
                In s' (map a (closed st)) \/
                exists m, In m (fringe st) /\ a m = s').
Proof.
  intros Hr. apply Inv_reach in Hr.
  split; [apply (inv_nodup _ _ _ _ Hr) | ].
  split; [apply (inv_notgoal _ _ _ _ Hr) | ].
  intros c s' Hc Hs.
  destruct (inv_succ _ _ _ _ Hr c s' Hc Hs) as [Hin | (m & Hm & E & _)];
    [now left | right; now exists m].
Qed.

Lemma closed_grids_are_distinct_witness :
  exists st,
    reach MISPLACED_TILES
          (seed MISPLACED_TILES (grid_of [1;2;3;4;0;6;7;5;8]) std_goal) st /\
    length (closed st) = 1%nat /\
    NoDup (map a (closed st)) /\
    (forall c, In c (closed st) -> a c <> std_goal) /\
    (forall c s', In c (closed st) -> slide (a c) s' ->
                  In s' (map a (closed st)) \/
                  exists m, In m (fringe st) /\ a m = s').
Proof.
  eexists. split; [exact reach_sample | ]. split; [reflexivity | ].
  exact (closed_grids_are_distinct _ _ _ _ reach_sample).
Defined.

(** X9: the closed list only grows at its back.  From whatever globals
    the loop is entered, at every later head of the loop the closed list
    is the earlier one followed by new nodes, so the position of a closed
    node (the address that [parent] holds) never changes; the counter of
    generated nodes has not fallen and [nodesExpanded] is untouched. *)
Theorem closed_only_grows (H : Heuristic) (st0 st : Globals) :
  reach H st0 st ->
  (exists ext, closed st = closed st0 ++ ext) /\
  (forall p c, nth_error (closed st0) p = Some c ->
               nth_error (closed st) p = Some c) /\
  nodesGenerated st0 <= nodesGenerated st /\
  nodesExpanded st = nodesExpanded st0.
Proof.
  intros Hr.
  assert (P : (exists ext, closed st = closed st0 ++ ext) /\
              nodesGenerated st0 <= nodesGenerated st /\
              nodesExpanded st = nodesExpanded st0).
  { induction Hr as [| st st' Hr IH Hs].
    - split; [exists []; now rewrite app_nil_r | split; [lia | reflexivity]].
    - apply step_inr in Hs. destruct Hs as (cur & _ & _ & _ & ->).
      destruct IH as ((ext & E) & Hg & He). cbn [expand closed
        nodesGenerated nodesExpanded]. split; [ | split; [lia | assumption]].
      exists (ext ++ [cur]). now rewrite E, app_assoc. }
  destruct P as ((ext & E) & Hg & He).
  split; [now exists ext | ]. split; [ | tauto].
  intros p c Hp. rewrite E, nth_error_app1; [assumption | ].
  apply nth_error_Some. congruence.
Qed.

Lemma closed_only_grows_witness :
  exists st0 st,
    reach MISPLACED_TILES st0 st /\ length (closed st) = 1%nat /\
    (exists ext, closed st = closed st0 ++ ext) /\
    (forall p c, nth_error (closed st0) p = Some c ->
                 nth_error (closed st) p = Some c) /\
    nodesGenerated st0 <= nodesGenerated st /\
    nodesExpanded st = nodesExpanded st0.
Proof.
  eexists. eexists. split; [exact reach_sample | ]. split; [reflexivity | ].
  exact (closed_only_grows _ _ _ reach_sample).
Defined.

(** ** Parent pointers and costs *)

Lemma contiguous_app_r (l1 l2 : list Grid) :
  contiguous (l1 ++ l2) -> contiguous l2.
Proof.
  induction l1 as [| z l1 IH]; [trivial | ].
  intros Hc. apply IH. cbn [app] in Hc.
  destruct (l1 ++ l2) as [| y tl]; [exact I | ]. exact (proj2 Hc).
Qed.

Lemma contiguous_last (l : list Grid) (x y : Grid) :
  contiguous ((l ++ [x]) ++ [y]) -> one_swap x y.
Proof.
  rewrite <- app_assoc. intros Hc. apply contiguous_app_r in Hc.
  exact (proj1 Hc).
Qed.

Lemma parent_index (H : Heuristic) (start gl : Grid) (st : Globals) :
  reach H (seed H start gl) st ->
  (forall k c p, nth_error (closed st) k = Some c -> parent c = Some p ->
                 (p < k)%nat) /\
  (forall n p, In n (fringe st) -> parent n = Some p ->
               (p < length (closed st))%nat).
Proof.
  induction 1 as [| st st' Hr IH Hs].
  - split; [intros [| k] c p; discriminate | ].
    intros n p [<- | []]. discriminate.
  - destruct IH as [IHc IHf]. apply step_inr in Hs.
    destruct Hs as (cur & Hcur & _ & _ & ->). split.
    + intros k c p Hk Hp. cbn [expand closed] in Hk.
      destruct (Nat.lt_ge_cases k (length (closed st))) as [Hlt | Hge].
      * rewrite nth_error_app1 in Hk by assumption. now apply (IHc k c p).
      * rewrite nth_error_app2 in Hk by assumption.
        destruct (k - length (closed st))%nat as [| d] eqn:Ed;
          [ | destruct d; discriminate].
        injection Hk as <-. pose proof (IHf cur p Hcur Hp). lia.
    + intros n p Hn Hp. apply in_expand_fringe in Hn.
      cbn [expand closed]. rewrite length_app. cbn [length].
      destruct Hn as [[Hin | (s' & -> & _ & _)] _].
      * pose proof (IHf n p Hin Hp). lia.
      * cbn in Hp. injection Hp as <-. lia.
Qed.

(** X10: parent pointers never dangle and never form a cycle.  At every
    head of the loop a node of the fringe or of the closed list either
    has no parent, and then it has the start grid and cost 0, or its
    parent is a node of the closed list whose grid differs from its own
    by one slide and whose cost is one less; the parent of a closed node
    stands before it in the closed list. *)
Theorem parents_are_closed_nodes (H : Heuristic) (start gl : Grid)
                                 (st : Globals) :
  reach H (seed H start gl) st ->
  (forall n, In n (fringe st) \/ In n (closed st) ->
     match parent n with
     | None => a n = start /\ g n = 0
     | Some p => exists pn, nth_error (closed st) p = Some pn /\
                            one_swap (a pn) (a n) /\ g n = g pn + 1
     end) /\
  (forall k c p, nth_error (closed st) k = Some c -> parent c = Some p ->
                 (p < k)%nat).
Proof.
  intros Hr. split; [ | exact (proj1 (parent_index _ _ _ _ Hr))].
  apply Inv_reach in Hr. intros n Hn.
  pose proof (node_wf _ _ _ _ _ Hr Hn)
    as (_ & _ & l & Hc & Hh & Hco & Hlen & _).
  inversion Hc as [n0 Hp | n0 p pn l0 Hp Hnth Hc0]; subst; rewrite Hp.
  - cbn in Hh, Hlen. injection Hh as Hh. split; [assumption | lia].
  - exists pn. split; [assumption | ].
    pose proof (inv_closed _ _ _ _ Hr p pn Hnth)
      as (_ & _ & l' & Hc' & _ & _ & Hlen' & _).
    rewrite (chain_unique _ _ _ _ Hc' Hc0) in Hlen'.
    destruct (chain_last _ _ _ Hc0) as (l00 & ->).
    split; [now apply contiguous_last with (l := l00) | ].
    rewrite length_app in Hlen. cbn [length] in Hlen. lia.
Qed.

Lemma parents_are_closed_nodes_witness :
  exists st,
    reach MISPLACED_TILES
          (seed MISPLACED_TILES (grid_of [1;2;3;4;0;6;7;5;8]) std_goal) st /\
    length (fringe st) = 4%nat /\
    forall n, In n (fringe st) \/ In n (closed st) ->
      match parent n with
      | None => a n = grid_of [1;2;3;4;0;6;7;5;8] /\ g n = 0
      | Some p => exists pn, nth_error (closed st) p = Some pn /\
                             one_swap (a pn) (a n) /\ g n = g pn + 1
      end.
Proof.
  eexists. split; [exact reach_sample | ]. split; [reflexivity | ].
  exact (proj1 (parents_are_closed_nodes _ _ _ _ reach_sample)).
Defined.

Lemma h_field (H : Heuristic) (start gl : Grid) (st : Globals) :
  reach H (seed H start gl) st ->
  forall n, In n (fringe st) \/ In n (closed st) ->
            h n = heuristic H (a n) gl.
Proof.
  induction 1 as [| st st' Hr IH Hs].
  - intros n [[<- | []] | []]. reflexivity.
  - apply Inv_reach in Hr. apply step_inr in Hs.
    destruct Hs as (cur & Hcur & _ & _ & ->). intros n [Hn | Hn].
    + apply in_expand_fringe in Hn.
      destruct Hn as [[Hin | (s' & -> & _ & _)] _]; [apply IH; now left | ].
      pose proof (inv_fringe _ _ _ _ Hr cur Hcur) as (Hg & _).
      cbn. now rewrite Hg.
    + cbn [expand closed] in Hn. apply in_app_iff in Hn.
      destruct Hn as [Hn | [<- | []]]; apply IH; [now right | now left].
Qed.

(** X11: the costs of every node are consistent.  At every head of the
    loop each node of the fringe and of the closed list carries the goal
    grid of the run, its [h] is the heuristic value of its grid, its [f]
    is [g + h], its [g] is the number of slides along its parent chain
    (at least 0, at most the number of closed nodes), and [h] lies
    between 0 and 36. *)
Theorem node_costs_are_consistent (H : Heuristic) (start gl : Grid)
                                  (st : Globals) :
  reach H (seed H start gl) st ->
  forall n, In n (fringe st) \/ In n (closed st) ->
    goal n = gl /\ h n = heuristic H (a n) gl /\ f n = g n + h n /\
    0 <= g n <= Z.of_nat (length (closed st)) /\ 0 <= h n <= 36 /\
    slides (Z.to_nat (g n)) start (a n).
Proof.
  intros Hr n Hn. pose proof (h_field _ _ _ _ Hr n Hn) as Hh.
  apply Inv_reach in Hr. pose proof (node_wf _ _ _ _ _ Hr Hn) as Hw.
  destruct (wf_node_slides _ _ _ _ _ _ Hw) as [Hg0 Hs].
  destruct Hw as (Hg & Hf & l & Hc & _ & _ & Hlen & Hbd).
  destruct (chain_last _ _ _ Hc) as (l0 & ->).
  rewrite length_app in Hlen, Hbd. cbn [length] in Hlen, Hbd.
  pose proof (heuristic_range H (a n) gl).
  rewrite Hh. repeat split; try assumption; lia.
Qed.

Lemma node_costs_are_consistent_witness :
  exists st,
    reach MANHATTAN
          (seed MANHATTAN (grid_of [1;2;3;4;0;6;7;5;8]) std_goal) st /\
    forall n, In n (fringe st) \/ In n (closed st) ->
      goal n = std_goal /\ h n = heuristic MANHATTAN (a n) std_goal /\
      f n = g n + h n /\
      0 <= g n <= Z.of_nat (length (closed st)) /\ 0 <= h n <= 36 /\
      slides (Z.to_nat (g n)) (grid_of [1;2;3;4;0;6;7;5;8]) (a n).
Proof.
  eexists. split; [apply reach_here | ].
  exact (node_costs_are_consistent _ _ _ _ (reach_here _ _)).
Defined.

(** ** Selection *)

(** X12: the selection loop of [solve] returns the last node of least
    [f]: the selected node is in the fringe, no node before it has a
    smaller [f], and every node behind it has a strictly greater [f]. *)
Theorem selection_returns_last_minimum (front : AStar) (rest : list AStar) :
  exists l1 l2,
    front :: rest = l1 ++ select front (front :: rest) :: l2 /\
    (forall m, In m l1 -> f (select front (front :: rest)) <= f m) /\
    (forall m, In m l2 -> f (select front (front :: rest)) < f m).
Proof.
  destruct (select_last_min front (front :: rest))
    as [[_ Hall] | (l1 & l2 & E & Hall)].
  - specialize (Hall front (or_introl eq_refl)). lia.
  - exists l1, l2. split; [assumption | ]. split; [ | assumption].
    intros m Hm. apply select_min. rewrite E. apply in_app_iff. now left.
Qed.

(** ** How runs end *)

Lemma run_ends_within (H : Heuristic) (start gl : Grid) :
  exists st,
    (exists path, main H (S (length (all_grids (to_list start)))) start gl
                  = Printed path st) \/
    main H (S (length (all_grids (to_list start)))) start gl
    = FrontOfEmpty st.
Proof.
  rewrite main_eq.
  destruct (loop H (S (length (all_grids (to_list start))))
                 (seed H start gl)) as [path st | st | st | st | st] eqn:El.
  - exists st. left. now exists path.
  - now contradiction (loop_not_broke H _ _ _ El).
  - exists st. now right.
  - destruct (loop_reach H _ _ _ _ (reach_here H _) El)
      as [(st' & _ & E & _) | (st' & Hr & Hs)]; [discriminate | ].
    apply Inv_reach in Hr.
    now contradiction (step_not_broken_chain H start gl st' st Hr).
  - destruct (loop_reach H _ _ _ _ (reach_here H _) El)
      as [(st' & Hr & E & Hlen) | (st' & Hr & Hs)].
    + apply Inv_reach in Hr. apply closed_bounded in Hr.
      cbn [seed closed length] in Hlen. lia.
    + now contradiction (step_not_out_of_fuel H st' st).
Qed.

(** X13: the loop of [solve] is not endless as long as the fringe is not
    empty.  For every pair of grids and either heuristic the run comes,
    within 387420490 turns of the loop, to printing a path or to
    [fringe.front()] on the empty fringe, and more turns do not change
    what it came to. *)
Theorem every_run_ends (H : Heuristic) (start gl : Grid) :
  exists fuel out,
    Z.of_nat fuel <= 387420490 /\
    main H fuel start gl = out /\
    ((exists path st, out = Printed path st) \/
     (exists st, out = FrontOfEmpty st)) /\
    forall fuel', (fuel <= fuel')%nat -> main H fuel' start gl = out.
Proof.
  exists (S (length (all_grids (to_list start)))).
  assert (Hb : Z.of_nat (S (length (all_grids (to_list start))))
               <= 387420490).
  { rewrite length_all_grids. unfold to_list. rewrite length_map.
    change (length cells) with 9%nat.
    rewrite Nat2Z.inj_succ, Nat2Z.inj_pow.
    change (Z.of_nat 9 ^ Z.of_nat 9) with 387420489. lia. }
  destruct (run_ends_within H start gl) as (st & [(path & E) | E]).
  - exists (Printed path st). split; [exact Hb | ].
    split; [exact E | ]. split; [left; now exists path, st | ].
    intros fuel' Hle. rewrite main_eq in *.
    apply loop_more with (fuel' := fuel') in E;
      [assumption | discriminate | assumption].
  - exists (FrontOfEmpty st). split; [exact Hb | ].
    split; [exact E | ]. split; [right; now exists st | ].
    intros fuel' Hle. rewrite main_eq in *.
    apply loop_more with (fuel' := fuel') in E;
      [assumption | discriminate | assumption].
Qed.

(** X14: the search is sound and complete for both heuristics and for
    all grids.  Some run prints a path exactly when slides lead from the
    start grid to the goal grid, and some run comes to [fringe.front()]
    on the empty fringe exactly when no slides do. *)
Theorem search_finds_what_is_reachable (H : Heuristic) (start gl : Grid) :
  ((exists fuel path st, main H fuel start gl = Printed path st) <->
   (exists k, slides k start gl)) /\
  ((exists fuel st, main H fuel start gl = FrontOfEmpty st) <->
   (forall k, ~ slides k start gl)).
Proof.
  split; split.
  - intros (fuel & path & st & E).
    exact (printed_solvable H fuel start gl path st E).
  - intros (k & Hk).
    destruct (run_ends H start gl) as (fuel & st & [(path & E) | E]).
    + now exists fuel, path, st.
    + now contradiction (front_of_empty_unsolvable _ _ _ _ _ E k).
  - intros (fuel & st & E).
    exact (front_of_empty_unsolvable H fuel start gl st E).
  - intros Hn.
    destruct (run_ends H start gl) as (fuel & st & [(path & E) | E]).
    + destruct (printed_solvable H fuel start gl path st E) as (k & Hk).
      now contradiction (Hn k).
    + now exists fuel, st.
Qed.

(** X15: with the misplaced-tiles heuristic and a valid start grid a node
    is closed only at the least cost of its grid: at every head of the
    loop the [g] of a closed node is the length of a slide sequence from
    the start grid to its grid, and no slide sequence between the two is
    shorter. *)
Theorem closed_costs_are_least (start gl : Grid) (st : Globals) :
  is_valid start = true ->
  reach MISPLACED_TILES (seed MISPLACED_TILES start gl) st ->
  forall c, In c (closed st) ->
    slides (Z.to_nat (g c)) start (a c) /\
    forall k, slides k start (a c) -> g c <= Z.of_nat k.
Proof.
  intros Hv Hr c Hc. split.
  - apply Inv_reach in Hr.
    pose proof (node_wf _ _ _ _ _ Hr (or_intror Hc)) as Hw.
    now apply wf_node_slides in Hw.
  - apply (Opt_reach MISPLACED_TILES start gl) with (st := st);
      [ | | assumption | assumption].
    + intros s n m Hn Hm. now apply slides_parity with (s := start) (t := s).
    + intros k s j t Hk Hj. cbn [heuristic].
      apply misplaced_slides; [ | assumption].
      now rewrite (is_valid_slides k start s).
Qed.

Lemma closed_costs_are_least_witness :
  exists st,
    reach MISPLACED_TILES
          (seed MISPLACED_TILES (grid_of [1;2;3;4;0;6;7;5;8]) std_goal) st /\
    length (closed st) = 1%nat /\
    forall c, In c (closed st) ->
      slides (Z.to_nat (g c)) (grid_of [1;2;3;4;0;6;7;5;8]) (a c) /\
      forall k, slides k (grid_of [1;2;3;4;0;6;7;5;8]) (a c) ->
                g c <= Z.of_nat k.
Proof.
  eexists. split; [exact reach_sample | ]. split; [reflexivity | ].
  exact (closed_costs_are_least (grid_of [1;2;3;4;0;6;7;5;8]) std_goal _
           eq_refl reach_sample).
Defined.

(** X19: all slide sequences between two valid grids have lengths of the
    same parity (a sequence that comes back to its grid has even length);
    hence, on a valid start grid, two nodes of the search with the same
    grid have costs [g] of the same parity. *)
Theorem path_lengths_have_one_parity (H : Heuristic) (start gl : Grid) :
  is_valid start = true ->
  (forall n m t, slides n start t -> slides m start t ->
                 Z.even (Z.of_nat n) = Z.even (Z.of_nat m)) /\
  (forall st x y, reach H (seed H start gl) st ->
                  In x (fringe st) \/ In x (closed st) ->
                  In y (fringe st) \/ In y (closed st) ->
                  a x = a y -> Z.even (g x) = Z.even (g y)).
Proof.
  intros Hv.
  assert (P : forall n m t, slides n start t -> slides m start t ->
                            Z.even (Z.of_nat n) = Z.even (Z.of_nat m)).
  { intros n m t Hn Hm.
    destruct (slides_parity n m start t Hv Hn Hm) as (d & E).
    now apply even_same with (d := d). }
  split; [exact P | ].
  intros st x y Hr Hx Hy E. apply Inv_reach in Hr.
  destruct (wf_node_slides _ _ _ _ _ _ (node_wf _ _ _ _ _ Hr Hx))
    as [Hgx Hsx].
  destruct (wf_node_slides _ _ _ _ _ _ (node_wf _ _ _ _ _ Hr Hy))
    as [Hgy Hsy].
  rewrite E in Hsx. specialize (P _ _ _ Hsx Hsy).
  now rewrite !Z2Nat.id in P by assumption.
Qed.

Lemma path_lengths_have_one_parity_witness :
  is_valid (grid_of [1;2;3;4;0;6;7;5;8]) = true /\
  forall n m t,
    slides n (grid_of [1;2;3;4;0;6;7;5;8]) t ->
    slides m (grid_of [1;2;3;4;0;6;7;5;8]) t ->
    Z.even (Z.of_nat n) = Z.even (Z.of_nat m).
Proof.
  split; [reflexivity | ].
  exact (proj1 (path_lengths_have_one_parity MISPLACED_TILES
                  (grid_of [1;2;3;4;0;6;7;5;8]) std_goal eq_refl)).
Defined.

(** ** One call of [getSuccessors] *)

(** X18: the effect of one call of [getSuccessors].  The call appends
    [currentNode] to the closed list, leaves [nodesExpanded] alone and
    raises [nodesGenerated] by the number of children it makes, kept or
    not.  Afterwards the fringe holds the nodes it held before and, for
    every grid one slide from the grid of [currentNode] that is not
    closed, a child with that grid, cost [g + 1], [f = g + h] and
    [currentNode]'s place in the closed list as parent; the nodes with
    the grid of [currentNode] are gone. *)
Theorem getSuccessors_effect (H : Heuristic) (cur : AStar) (st : Globals) :
  closed (snd (getSuccessors H cur st)) = closed st ++ [cur] /\
  nodesExpanded (snd (getSuccessors H cur st)) = nodesExpanded st /\
  nodesGenerated (snd (getSuccessors H cur st))
  = nodesGenerated st + Z.of_nat (length (moves (a cur))) /\
  forall n,
    In n (fringe (snd (getSuccessors H cur st))) <->
    a n <> a cur /\
    (In n (fringe st) \/
     exists s', slide (a cur) s' /\ ~ In s' (map a (closed st)) /\
                n = mkAStar s' (goal cur) (g cur + 1)
                            (heuristic H s' (goal cur))
                            (g cur + 1 + heuristic H s' (goal cur))
                            (Some (length (closed st)))).
Proof.
  rewrite getSuccessors_eq. cbn [snd].
  split; [reflexivity | ]. split; [reflexivity | ]. split; [reflexivity | ].
  intros n. rewrite in_expand_fringe. split.
  - intros [[Hin | (s' & -> & Hfr & Hsl)] Hne]; (split; [assumption | ]);
      [now left | right].
    exists s'. split; [assumption | ]. split; [ | reflexivity].
    intros Hin. apply Hfr. rewrite map_app, in_app_iff. now left.
  - intros [Hne [Hin | (s' & Hsl & Hfr & ->)]]; (split; [ | assumption]);
      [now left | right].
    exists s'. split; [reflexivity | ]. split; [ | assumption].
    rewrite map_app, in_app_iff. cbn [map In].
    intros [Hin | [E | []]]; [now apply Hfr | ]. apply Hne. now symmetry.
Qed.

(** ** The counters *)

Lemma length_neighbours_lower (i j : nat) :
  in_bounds i j -> (2 <= length (neighbours i j))%nat.
Proof.
  intros Hb. all_positions i j Hb; cbn; lia.
Qed.

Lemma length_moves_at_lower (s : Grid) (cs : list (nat * nat)) :
  (forall p, In p cs -> in_bounds (fst p) (snd p)) ->
  2 * fold_right (fun p acc =>
                    (if get s (fst p) (snd p) =? 0 then 1 else 0) + acc)
                 0 cs
  <= Z.of_nat (length (flat_map (moves_at s) cs)).
Proof.
  induction cs as [| p cs IH]; intros Hb; [cbn; lia | ].
  cbn [flat_map fold_right]. rewrite length_app. unfold moves_at at 1.
  assert (IH' := IH (fun q Hq => Hb q (or_intror Hq))).
  destruct (get s (fst p) (snd p) =? 0).
  - rewrite length_map.
    pose proof (length_neighbours_lower (fst p) (snd p)
                  (Hb p (or_introl eq_refl))). lia.
  - cbn [length]. lia.
Qed.

(** Every blank of a grid has two, three or four neighbours. *)
Lemma moves_count (s : Grid) :
  2 * count 0 s <= Z.of_nat (length (moves s)) <= 4 * count 0 s.
Proof.
  assert (E : fold_right (fun p acc =>
                (if get s (fst p) (snd p) =? 0 then 1 else 0) + acc) 0 cells
              = count 0 s).
  { unfold count. rewrite gsum_unfold. destruct s. cbn. ring. }
  pose proof (length_moves_at s cells) as Hu.
  pose proof (length_moves_at_lower s cells) as Hl.
  fold (moves s) in Hu, Hl. rewrite E in Hu, Hl. split; [ | assumption].
  apply Hl. intros [i j] Hp. now apply in_cells.
Qed.

Lemma count_nonneg (v : Z) (s : Grid) : 0 <= count v s.
Proof.
  unfold count. apply gsum_nonneg. intros i j x. destruct (x =? v); lia.
Qed.

Lemma generated_between (H : Heuristic) (start gl : Grid) (st : Globals) :
  reach H (seed H start gl) st ->
  2 * count 0 start * Z.of_nat (length (closed st)) <= nodesGenerated st
  /\ nodesGenerated st <= 4 * count 0 start * Z.of_nat (length (closed st)).
Proof.
  induction 1 as [| st st' Hr IH Hs]; [cbn; lia | ].
  apply Inv_reach in Hr. apply step_inr in Hs.
  destruct Hs as (cur & Hin & _ & _ & ->).
  cbn [expand nodesGenerated closed]. rewrite length_app. cbn [length].
  pose proof (inv_fringe _ _ _ _ Hr cur Hin) as Hw.
  apply wf_node_slides in Hw. destruct Hw as [_ Hw].
  pose proof (slides_same_counts _ _ _ 0 Hw) as Ec.
  pose proof (moves_count (a cur)) as Hm. rewrite Ec in Hm.
  pose proof (count_nonneg 0 start). nia.
Qed.

Lemma no_blank_run (H : Heuristic) (start gl : Grid) (st : Globals) :
  count 0 start = 0 -> reach H (seed H start gl) st ->
  st = seed H start gl \/ fringe st = [].
Proof.
  intros Hc. induction 1 as [| st st' Hr IH Hs]; [now left | right].
  apply step_inr in Hs. destruct Hs as (cur & Hin & _ & _ & ->).
  destruct IH as [-> | E]; [ | rewrite E in Hin; destruct Hin].
  destruct Hin as [<- | []].
  destruct (fringe (expand H (start_node H start gl) (seed H start gl)))
    as [| n fr] eqn:Ef; [reflexivity | exfalso].
  assert (Hn : In n (fringe (expand H (start_node H start gl)
                                    (seed H start gl))))
    by (rewrite Ef; now left).
  apply in_expand_fringe in Hn.
  destruct Hn as [[[<- | []] | (s' & _ & _ & Hsl)] Hne];
    [now apply Hne | ].
  apply in_moves in Hsl. pose proof (moves_count start) as Hm.
  change (a (start_node H start gl)) with start in Hsl.
  destruct (moves start); [destruct Hsl | cbn [length] in Hm; lia].
Qed.

Lemma printed_state (H : Heuristic) (fuel : nat) (start gl : Grid)
                    (path : list Grid) (st : Globals) :
  main H fuel start gl = Printed path st ->
  exists st',
    reach H (seed H start gl) st' /\ fringe st' <> [] /\
    (length path <= S (length (closed st')))%nat /\
    st = mkGlobals (fringe st') (closed st') (nodesGenerated st')
                   (Z.of_nat (length (closed st'))).
Proof.
  rewrite main_eq. intros Hl.
  destruct (loop_reach H _ fuel _ _ (reach_here H _) Hl)
    as [(st' & _ & E & _) | (st' & Hr & Hs)]; [discriminate | ].
  pose proof (Inv_reach _ _ _ _ Hr) as I.
  destruct (step_printed _ _ _ _ _ _ I Hs)
    as (cur & Hin & _ & _ & Hc & Hw & ->).
  exists st'. split; [assumption | ].
  split; [intros E; rewrite E in Hin; destruct Hin | ].
  split; [ | reflexivity].
  destruct Hw as (_ & _ & l & Hc' & _ & _ & _ & Hbd).
  now rewrite <- (chain_unique _ _ _ _ Hc' Hc).
Qed.

(** X16: the counters that a successful run reports.  [nodesExpanded] is
    the length of the closed list; at least two children were generated
    for every expanded node, and at most four when the start grid is
    valid; and the printed path has at most one grid more than nodes were
    expanded. *)
Theorem counters_of_a_successful_run (H : Heuristic) (fuel : nat)
    (start gl : Grid) (path : list Grid) (st : Globals) :
  main H fuel start gl = Printed path st ->
  nodesExpanded st = Z.of_nat (length (closed st)) /\
  2 * nodesExpanded st <= nodesGenerated st /\
  (is_valid start = true -> nodesGenerated st <= 4 * nodesExpanded st) /\
  Z.of_nat (length path) <= nodesExpanded st + 1.
Proof.
  intros E. destruct (printed_state _ _ _ _ _ _ E)
    as (st' & Hr & Hne & Hlen & ->).
  cbn [nodesExpanded nodesGenerated closed].
  pose proof (generated_between _ _ _ _ Hr) as [Hlo Hhi].
  pose proof (count_nonneg 0 start) as Hc.
  split; [reflexivity | ]. split; [ | split; [ | lia]].
  - destruct (Z.eq_dec (count 0 start) 0) as [E0 | E0].
    + destruct (no_blank_run _ _ _ _ E0 Hr) as [-> | Ef];
        [cbn; lia | contradiction].
    + nia.
  - intros Hv. rewrite (is_valid_count start 0 Hv) in Hhi by lia. lia.
Qed.

Lemma counters_of_a_successful_run_witness :
  exists path st,
    main MISPLACED_TILES 5 (grid_of [1;2;3;4;0;6;7;5;8]) std_goal
    = Printed path st /\
    nodesExpanded st = Z.of_nat (length (closed st)) /\
    2 * nodesExpanded st <= nodesGenerated st /\
    Z.of_nat (length path) <= nodesExpanded st + 1.
Proof.
  destruct (main MISPLACED_TILES 5 (grid_of [1;2;3;4;0;6;7;5;8]) std_goal)
    as [path st | | | | ] eqn:E; try (vm_compute in E; discriminate E).
  exists path, st. split; [reflexivity | ].
  pose proof (counters_of_a_successful_run MISPLACED_TILES 5
                (grid_of [1;2;3;4;0;6;7;5;8]) std_goal path st E) as P.
  tauto.
Defined.

(** X17: no [int] of the search overflows on a valid start grid.  At
    every head of the loop the closed list has at most 387420489 nodes,
    the cost [g] of a node is at most that, [f] at most 36 more, and
    [nodesGenerated] at most four times that; so the increments
    [g += 1] and [nodesGenerated++] of the next expansion stay below
    [INT_MAX]. *)
Theorem search_values_fit_int (H : Heuristic) (start gl : Grid)
                              (st : Globals) :
  is_valid start = true -> reach H (seed H start gl) st ->
  Z.of_nat (length (closed st)) <= 387420489 /\
  0 <= nodesGenerated st /\ nodesGenerated st + 4 < INT_MAX /\
  forall n, In n (fringe st) \/ In n (closed st) ->
    0 <= g n /\ g n + 1 < INT_MAX /\ 0 <= h n <= 36 /\
    0 <= f n /\ f n < INT_MAX.
Proof.
  intros Hv Hr. pose proof (generated_bounded H start gl st Hv Hr) as Hg.
  pose proof (Inv_reach _ _ _ _ Hr) as I.
  pose proof (closed_at_most H start gl st I) as Hc. unfold INT_MAX.
  split; [assumption | ]. split; [lia | ]. split; [lia | ].
  intros n Hn. pose proof (h_field _ _ _ _ Hr n Hn) as Hh.
  pose proof (node_wf _ _ _ _ _ I Hn)
    as (_ & Hf & l & Hch & _ & _ & Hlen & Hbd).
  destruct (chain_last _ _ _ Hch) as (l0 & ->).
  rewrite length_app in Hlen, Hbd. cbn [length] in Hlen, Hbd.
  pose proof (heuristic_range H (a n) gl). rewrite Hh. lia.
Qed.

Lemma search_values_fit_int_witness :
  exists st,
    reach MISPLACED_TILES
          (seed MISPLACED_TILES (grid_of [1;2;3;4;0;6;7;5;8]) std_goal) st /\
    length (fringe st) = 4%nat /\
    Z.of_nat (length (closed st)) <= 387420489 /\
    0 <= nodesGenerated st /\ nodesGenerated st + 4 < INT_MAX /\
    forall n, In n (fringe st) \/ In n (closed st) ->
      0 <= g n /\ g n + 1 < INT_MAX /\ 0 <= h n <= 36 /\
      0 <= f n /\ f n < INT_MAX.
Proof.
  eexists. split; [exact reach_sample | ]. split; [reflexivity | ].
  exact (search_values_fit_int MISPLACED_TILES
           (grid_of [1;2;3;4;0;6;7;5;8]) std_goal _ eq_refl reach_sample).
Defined.

(** ** The printed text *)

Lemma no_blank_uint (d : Decimal.uint) :
  no_blank (DecimalString.NilEmpty.string_of_uint d).
Proof.
  induction d; cbn; try tauto; (split; [discriminate | assumption]).
Qed.

Lemma no_blank_int (v : Z) : no_blank (cout_int v).
Proof.
  unfold cout_int.
  destruct (Z.to_int v) as [d | d]; cbn.
  - destruct d; try apply no_blank_uint. cbn. split; [discriminate | exact I].
  - split; [discriminate | ].
    destruct d; try apply no_blank_uint. cbn. split; [discriminate | exact I].
Qed.

Lemma cout_int_inj (v w : Z) : cout_int v = cout_int w -> v = w.
Proof.
  unfold cout_int. intros E.
  apply DecimalZ.to_int_inj.
  assert (N : forall z, Z.to_int z <> Decimal.Pos Decimal.Nil /\ Z.to_int z <> Decimal.Neg Decimal.Nil).
  { intros z. destruct z; cbn; split; try discriminate.
    - pose proof (DecimalPos.Unsigned.to_uint_nonnil p). congruence.
    - pose proof (DecimalPos.Unsigned.to_uint_nonnil p). congruence. }
  pose proof (DecimalString.NilZero.isi (Z.to_int v) (proj1 (N v)) (proj2 (N v))) as E1.
  pose proof (DecimalString.NilZero.isi (Z.to_int w) (proj1 (N w)) (proj2 (N w))) as E2.
  rewrite E in E1. congruence.
Qed.

Lemma split_token (u u' x x' : String.string) :
  no_blank u -> no_blank u' ->
  String.append u (String.String blank_char x)
  = String.append u' (String.String blank_char x') ->
  u = u' /\ x = x'.
Proof.
  revert u'. induction u as [| c u IH]; intros [| c' u'] Hu Hu' E; cbn in *.
  - injection E as E. now split.
  - injection E as Ec _. destruct Hu' as [Hc _]. now contradiction Hc.
  - injection E as Ec _. destruct Hu as [Hc _]. now contradiction Hc.
  - injection E as Ec E. destruct (IH u' (proj2 Hu) (proj2 Hu') E) as [-> ->].
    now subst.
Qed.

Lemma append_assoc (x y z : String.string) :
  String.append (String.append x y) z = String.append x (String.append y z).
Proof.
  induction x as [| c x IH]; cbn; [reflexivity | now rewrite IH].
Qed.

Lemma print_eq (s : Grid) (out : String.string) :
  print s out = String.append out (grid_text s String.EmptyString).
Proof.
  unfold print, print_row, rows, columns, MAX_ROWS, MAX_COLUMNS, grid_text,
    row_text, cell_text.
  cbn [seq fold_left get]. rewrite !append_assoc. reflexivity.
Qed.

Lemma cell_text_inj (v w : Z) (x y : String.string) :
  cell_text v x = cell_text w y -> v = w /\ x = y.
Proof.
  intros E. apply split_token in E; try apply no_blank_int.
  destruct E as [E ->]. split; [now apply cout_int_inj | reflexivity].
Qed.

Lemma grid_text_inj (s t : Grid) (x y : String.string) :
  grid_text s x = grid_text t y -> s = t /\ x = y.
Proof.
  destruct s as [x00 x01 x02 x10 x11 x12 x20 x21 x22],
    t as [y00 y01 y02 y10 y11 y12 y20 y21 y22].
  unfold grid_text, row_text. cbn [a00 a01 a02 a10 a11 a12 a20 a21 a22].
  intros E.
  repeat (first [ apply cell_text_inj in E; destruct E as [? E]
                | cbn [String.append endl] in E; injection E as E ]).
  subst. now split.
Qed.

Lemma cell_text_app (v : Z) (x y : String.string) :
  cell_text v (String.append x y) = String.append (cell_text v x) y.
Proof. unfold cell_text. now rewrite append_assoc. Qed.

Lemma row_text_app (x y z : Z) (r1 r2 : String.string) :
  row_text x y z (String.append r1 r2)
  = String.append (row_text x y z r1) r2.
Proof.
  unfold row_text. now rewrite <- append_assoc, !cell_text_app.
Qed.

Lemma grid_text_app (s : Grid) (r1 r2 : String.string) :
  grid_text s (String.append r1 r2) = String.append (grid_text s r1) r2.
Proof.
  unfold grid_text. now rewrite <- append_assoc, !row_text_app.
Qed.

Lemma append_empty (x : String.string) :
  String.append x String.EmptyString = x.
Proof. induction x as [| c x IH]; cbn; [reflexivity | now rewrite IH]. Qed.

Lemma path_text_eq (l : list Grid) (out : String.string) :
  path_text l out
  = String.append out
      (fold_right (fun s rest => grid_text s rest) String.EmptyString l).
Proof.
  revert out. induction l as [| s l IH]; intros out; cbn [path_text fold_right].
  - now rewrite append_empty.
  - rewrite IH, print_eq, append_assoc, <- grid_text_app. reflexivity.
Qed.

Lemma grid_text_nonempty (s : Grid) (x : String.string) :
  grid_text s x <> String.EmptyString.
Proof.
  unfold grid_text, row_text. unfold cell_text at 1.
  destruct (cout_int (a00 s)); discriminate.
Qed.

Lemma texts_inj (p q : list Grid) :
  fold_right (fun s rest => grid_text s rest) String.EmptyString p
  = fold_right (fun s rest => grid_text s rest) String.EmptyString q ->
  p = q.
Proof.
  revert q. induction p as [| s p IH]; intros [| t q] E; cbn in E.
  - reflexivity.
  - symmetry in E. now apply grid_text_nonempty in E.
  - now apply grid_text_nonempty in E.
  - apply grid_text_inj in E. destruct E as [-> E]. f_equal. now apply IH.
Qed.

Lemma append_inj_l (out x y : String.string) :
  String.append out x = String.append out y -> x = y.
Proof.
  induction out as [| c out IH]; cbn; [trivial | ].
  intros E. injection E as E. now apply IH.
Qed.

Lemma printPath_text_eq (fuel : nat) (cl : list AStar) (cur : AStar)
                        (out : String.string) :
  printPath_text fuel cl cur out
  = option_map (fun l => path_text l out) (printPath fuel cl cur).
Proof.
  revert cur. induction fuel as [| fuel IH]; intros cur; [reflexivity | ].
  cbn [printPath_text printPath]. destruct (parent cur) as [p | ];
    [ | reflexivity].
  destruct (nth_error cl p) as [pn | ]; [ | reflexivity].
  rewrite IH. destruct (printPath fuel cl pn) as [l | ]; [ | reflexivity].
  cbn [option_map]. f_equal.
  rewrite !path_text_eq, print_eq, !append_assoc. f_equal.
  induction l as [| s l IHl]; [reflexivity | ].
  cbn [app fold_right]. rewrite <- IHl, <- grid_text_app. reflexivity.
Qed.

(** X20: what [print] writes can be read back.  Two grids whose printed
    texts agree are the same grid, two sequences of grids printed one
    after the other with the same text are the same sequence, and
    [printPath] writes the text of the sequence of grids from the root of
    the parent chain down to the node. *)
Theorem printed_text_determines_the_path :
  (forall out s t, print s out = print t out -> s = t) /\
  (forall out p q, path_text p out = path_text q out -> p = q) /\
  (forall fuel cl cur out,
      printPath_text fuel cl cur out
      = option_map (fun l => path_text l out) (printPath fuel cl cur)).
Proof.
  split; [ | split].
  - intros out s t. rewrite !print_eq. intros E. apply append_inj_l in E.
    now apply grid_text_inj in E.
  - intros out p q. rewrite !path_text_eq. intros E. apply append_inj_l in E.
    now apply texts_inj.
  - apply printPath_text_eq.
Qed.
